(** * Car sequencing: the instance model and its objective function

    A shallow embedding of [car_sequencing_problem.py].  Python integers are
    [Z], Python lists are [list], exceptions are an explicit error monad, and
    the iterator used by the instance loader is a state-and-error monad over
    the remaining tokens. *)

From Stdlib Require Import ZArith Lia.
From stdpp Require Import base tactics option list sorting.

Local Open Scope Z_scope.

(** ** Python primitives *)

Inductive exn : Type :=
  | IndexError
  | TypeError
  | StopIteration
  | ValueError.

Inductive result (A : Type) : Type :=
  | Ok (a : A)
  | Raise (e : exn).

Arguments Ok {A} a.
Arguments Raise {A} e.

#[global] Instance result_ret : MRet result := @Ok.

#[global] Instance result_bind : MBind result := λ A B f m,
  match m with
  | Ok a => f a
  | Raise e => Raise e
  end.

(** [len(l)] *)
Definition len {A : Type} (l : list A) : Z := Z.of_nat (length l).

(** [range(n)]: empty when [n <= 0]. *)
Definition range (n : Z) : list Z := Z.of_nat <$> seq 0 (Z.to_nat n).

(** [l[i]]: a negative index counts from the end, anything outside
    [-len(l) .. len(l) - 1] raises [IndexError]. *)
Definition getitem {A : Type} (l : list A) (i : Z) : result A :=
  let k := if i <? 0 then i + len l else i in
  if k <? 0 then Raise IndexError
  else match l !! Z.to_nat k with
       | Some x => Ok x
       | None => Raise IndexError
       end.

(** [for x in xs: s = body(x, s)] with the loop-carried variables in [s]. *)
Fixpoint for_each {A S : Type} (xs : list A) (body : A → S → result S)
    (s : S) : result S :=
  match xs with
  | [] => Ok s
  | x :: xs' => s' ← body x s; for_each xs' body s'
  end.

(** [[f(x) for x in xs]] *)
Definition comprehension {A B : Type} (f : A → result B) (xs : list A)
    : result (list B) :=
  mapM f xs.

(** [sorted(l)] on a list of integers. *)
Definition sorted (l : list Z) : list Z := merge_sort Z.le l.

(** ** Values handed to and returned by the evaluator *)

(** A candidate as the evaluator receives it: the object's type matters to the
    [isinstance] test, so it is kept next to the items.  [PySequence] stands
    for any sequence that is neither a list nor a tuple (a range, a deque, an
    array); [PyNone] for an object without a length.  Items are Python ints. *)
Inductive pyobj : Type :=
  | PyList (items : list Z)
  | PyTuple (items : list Z)
  | PySequence (items : list Z)
  | PyNone.

(** [isinstance(solution, (list, tuple))] *)
Definition isinstance_list_tuple (solution : pyobj) : bool :=
  match solution with
  | PyList _ | PyTuple _ => true
  | PySequence _ | PyNone => false
  end.

Definition items_of (solution : pyobj) : list Z :=
  match solution with
  | PyList l | PyTuple l | PySequence l => l
  | PyNone => []
  end.

(** [len(solution)] on an object. *)
Definition len_obj (solution : pyobj) : result Z :=
  match solution with
  | PyList l | PyTuple l | PySequence l => Ok (len l)
  | PyNone => Raise TypeError
  end.

(** A returned number: the running total is a Python int, the penalty is the
    float literal [1e9]; [PyFloat v] is the float whose value is the
    integer [v]. *)
Inductive pynum : Type :=
  | PyInt (v : Z)
  | PyFloat (v : Z).

(** ** The instance *)

Record CarSequencingProblem : Type := {
  nb_positions : Z;
  nb_options : Z;
  max_cars_per_window : list Z;
  window_size : list Z;
  options : list (list bool);
  initial_sequence : list Z
}.

(** ** evaluate_solution *)

Definition PENALTY : pynum := PyFloat 1000000000.

(** Lines 107-111: the number of cars of the window starting at [j], of
    length [w], that require option [o]. *)
Definition window_count (self : CarSequencingProblem) (sequence : list Z)
    (o j w : Z) : result Z :=
  for_each (range w) (λ k count,
    car_class ← getitem sequence (j + k);
    row ← getitem (options self) car_class;
    required ← getitem row o;
    mret (if required : bool then count + 1 else count)) 0.

(** Lines 106-113: the body of the loop on [j]. *)
Definition window_pass (self : CarSequencingProblem) (sequence : list Z)
    (o w max_allowed j total_violations : Z) : result Z :=
  count ← window_count self sequence o j w;
  mret (if max_allowed <? count
        then total_violations + (count - max_allowed)
        else total_violations).

(** Lines 102-113: the body of the loop on [o]. *)
Definition option_pass (self : CarSequencingProblem) (sequence : list Z)
    (o total_violations : Z) : result Z :=
  w ← getitem (window_size self) o;
  max_allowed ← getitem (max_cars_per_window self) o;
  for_each (range (nb_positions self - w + 1))
    (window_pass self sequence o w max_allowed) total_violations.

(** Line 100: [sequence = [self.initial_sequence[i] for i in solution]] *)
Definition reconstruct (self : CarSequencingProblem) (items : list Z)
    : result (list Z) :=
  comprehension (getitem (initial_sequence self)) items.

(** Lines 101-114: the scan of a sequence of classes. *)
Definition scan (self : CarSequencingProblem) (sequence : list Z)
    : result pynum :=
  total_violations ← for_each (range (nb_options self))
                        (option_pass self sequence) 0;
  mret (PyInt total_violations).

(** Lines 99-114, once the candidate has passed both tests. *)
Definition score (self : CarSequencingProblem) (items : list Z)
    : result pynum :=
  sequence ← reconstruct self items;
  scan self sequence.

Definition evaluate_solution (self : CarSequencingProblem) (solution : pyobj)
    : result pynum :=
  if negb (isinstance_list_tuple solution) then Ok PENALTY
  else
    n ← len_obj solution;
    if negb (bool_decide (n = nb_positions self)) then Ok PENALTY
    else if negb (bool_decide (sorted (items_of solution)
                               = range (nb_positions self)))
    then Ok PENALTY
    else score self (items_of solution).

(** The scenario of the documentation: four positions, one option with at
    most one car in any window of two. *)
Definition scenario : CarSequencingProblem := {|
  nb_positions := 4;
  nb_options := 1;
  max_cars_per_window := [1];
  window_size := [2];
  options := [[true]; [false]];
  initial_sequence := [0; 0; 1; 1]
|}.

(** ** _load_instance *)

(** [it = iter(data)]: a computation that may advance the iterator or
    raise. *)
Definition iter (A : Type) : Type := list Z → result (A * list Z).

#[global] Instance iter_ret : MRet iter := λ A a it, Ok (a, it).

#[global] Instance iter_bind : MBind iter := λ A B f m it,
  match m it with
  | Ok (a, it') => f a it'
  | Raise e => Raise e
  end.

(** [next(it)] *)
Definition next : iter Z := λ it,
  match it with
  | [] => Raise StopIteration
  | x :: it' => Ok (x, it')
  end.

(** [raise ValueError(...)] *)
Definition raise {A : Type} (e : exn) : iter A := λ _, Raise e.

(** [[next(it) for _ in range(n)]] *)
Definition next_list (n : Z) : iter (list Z) :=
  mapM (M := iter) (λ _, next) (range n).

(** [[next(it) == 1 for _ in range(n)]] *)
Definition next_flags (n : Z) : iter (list bool) :=
  mapM (M := iter) (λ _, x ← next; mret (bool_decide (x = 1))) (range n).

(** [for x in xs] around a body that advances the iterator. *)
Fixpoint for_each_it {A S : Type} (xs : list A) (body : A → S → iter S)
    (s : S) : iter S :=
  match xs with
  | [] => mret s
  | x :: xs' => s' ← body x s; for_each_it xs' body s'
  end.

(** The three lists the loop on the classes extends. *)
Record load_state : Type := {
  nb_cars : list Z;
  ld_options : list (list bool);
  ld_initial_sequence : list Z
}.

(** Lines 65-73: the body of the loop on [c]. *)
Definition load_class (nb_opts : Z) (c : Z) (st : load_state)
    : iter load_state :=
  _ ← next;
  count ← next;
  opt ← next_flags nb_opts;
  mret {| nb_cars := nb_cars st ++ [count];
          ld_options := ld_options st ++ [opt];
          ld_initial_sequence :=
            ld_initial_sequence st ++ replicate (Z.to_nat count) c |}.

(** Lines 55-75 on the iterator. *)
Definition load_from_iter : iter CarSequencingProblem :=
  positions ← next;
  nb_opts ← next;
  nb_classes ← next;
  maxima ← next_list nb_opts;
  sizes ← next_list nb_opts;
  st ← for_each_it (range nb_classes) (load_class nb_opts)
         {| nb_cars := []; ld_options := []; ld_initial_sequence := [] |};
  if negb (bool_decide (len (ld_initial_sequence st) = positions))
  then raise ValueError
  else mret {| nb_positions := positions;
               nb_options := nb_opts;
               max_cars_per_window := maxima;
               window_size := sizes;
               options := ld_options st;
               initial_sequence := ld_initial_sequence st |}.

(** [_load_instance] on the integers read from the file: the object built, or
    the exception that reaches the caller. *)
Definition _load_instance (data : list Z) : result CarSequencingProblem :=
  match load_from_iter data with
  | Ok (self, _) => Ok self
  | Raise e => Raise e
  end.

Definition two_classes : list Z :=
  [4; 1; 2;  1;  2;  0; 2; 1;  1; 2; 0].

(** ** The reference objective

    Written after the wording of the specification, on total lookups: a sum
    over the options and over the window starts of the excess of each
    window. *)
Module Reference.

(** The integers of [[lo, hi)]. *)
Definition interval (lo hi : Z) : list Z :=
  (λ i : nat, lo + Z.of_nat i) <$> seq 0 (Z.to_nat (hi - lo)).

Definition Zsum {A : Type} (f : A → Z) (xs : list A) : Z :=
  foldr (λ x acc, f x + acc) 0 xs.

(** [l[i]] for [0 <= i < len l], a default elsewhere. *)
Definition at_index {A : Type} (d : A) (l : list A) (i : Z) : A :=
  if i <? 0 then d else nth (Z.to_nat i) l d.

(** [sequence[k] = initial_sequence[candidate[k]]] *)
Definition sequence_of (self : CarSequencingProblem) (candidate : list Z)
    : list Z :=
  at_index 0 (initial_sequence self) <$> candidate.

(** [class_options[c][o]] *)
Definition class_options (self : CarSequencingProblem) (c o : Z) : bool :=
  at_index false (at_index [] (options self) c) o.

(** The number of positions [k] in [[j, j + window_size[o])] whose class
    requires option [o]. *)
Definition count (self : CarSequencingProblem) (sequence : list Z)
    (o j : Z) : Z :=
  len (filter (λ k, class_options self (at_index 0 sequence k) o = true)
         (interval j (j + at_index 0 (window_size self) o))).

(** [max(0, count - max_per_window[o])] *)
Definition excess (self : CarSequencingProblem) (sequence : list Z)
    (o j : Z) : Z :=
  Z.max 0 (count self sequence o j
           - at_index 0 (max_cars_per_window self) o).

(** The window starts of option [o]:
    [0 .. position_count - window_size[o]], both ends included. *)
Definition window_starts (self : CarSequencingProblem) (o : Z) : list Z :=
  interval 0 (nb_positions self - at_index 0 (window_size self) o + 1).

Definition option_violations (self : CarSequencingProblem)
    (sequence : list Z) (o : Z) : Z :=
  Zsum (excess self sequence o) (window_starts self o).

Definition objective_on (self : CarSequencingProblem) (sequence : list Z)
    : Z :=
  Zsum (option_violations self sequence) (interval 0 (nb_options self)).

Definition objective (self : CarSequencingProblem) (candidate : list Z)
    : Z :=
  objective_on self (sequence_of self candidate).

End Reference.

(** ** The invariants of the data model *)

Record well_formed (self : CarSequencingProblem) : Prop := {
  wf_max : len (max_cars_per_window self) = nb_options self;
  wf_window : len (window_size self) = nb_options self;
  wf_rows : ∀ row, row ∈ options self → len row = nb_options self;
  wf_initial : len (initial_sequence self) = nb_positions self;
  wf_classes : ∀ c, c ∈ initial_sequence self → 0 ≤ c < len (options self)
}.

(** A candidate the evaluator accepts: a list or a tuple holding a
    permutation of [0 .. nb_positions - 1]. *)
Definition valid_permutation (self : CarSequencingProblem) (items : list Z)
    : Prop :=
  items ≡ₚ range (nb_positions self).

(** The three tests of lines 94-97, as one boolean. *)
Definition passes_validation (self : CarSequencingProblem) (solution : pyobj)
    : bool :=
  isinstance_list_tuple solution
  && bool_decide (len (items_of solution) = nb_positions self)
  && bool_decide (sorted (items_of solution) = range (nb_positions self)).

(** [max_cars_per_window[o] = m] on an otherwise unchanged instance. *)
Definition with_max (self : CarSequencingProblem) (o : nat) (m : Z)
    : CarSequencingProblem :=
  {| nb_positions := nb_positions self;
     nb_options := nb_options self;
     max_cars_per_window := <[o := m]> (max_cars_per_window self);
     window_size := window_size self;
     options := options self;
     initial_sequence := initial_sequence self |}.

(** ** Structured descriptions *)

(** One class of the textual format: the index token, the number of cars and
    the option indicators. *)
Record class_description : Type := {
  class_index : Z;
  car_count : Z;
  indicators : list Z
}.

Record description : Type := {
  d_positions : Z;
  d_max : list Z;
  d_window : list Z;
  d_classes : list class_description
}.

Definition class_tokens (cd : class_description) : list Z :=
  class_index cd :: car_count cd :: indicators cd.

(** The token stream of a description. *)
Definition tokens (d : description) : list Z :=
  [d_positions d; len (d_max d); len (d_classes d)]
  ++ d_max d ++ d_window d ++ concat (class_tokens <$> d_classes d).

(** The number of tokens the format prescribes. *)
Definition expected_tokens (nb_opts nb_classes : Z) : Z :=
  3 + 2 * nb_opts + nb_classes * (2 + nb_opts).

(** A description follows the layout when it gives one window size per
    option and one indicator per option and class. *)
Record laid_out (d : description) : Prop := {
  lo_window : length (d_window d) = length (d_max d);
  lo_indicators :
    ∀ cd, cd ∈ d_classes d → length (indicators cd) = length (d_max d)
}.

(** It is well formed when, besides, no class has a negative number of
    cars. *)
Record well_formed_description (d : description) : Prop := {
  wfd_layout : laid_out d;
  wfd_counts : ∀ cd, cd ∈ d_classes d → 0 ≤ car_count cd
}.

(** The iterator computation [m] reads exactly [N] tokens: it raises
    [StopIteration] on a shorter stream and leaves the rest of a longer
    one. *)
Definition reads {A : Type} (N : nat) (m : iter A) : Prop :=
  ∀ it, ((length it < N)%nat → m it = Raise StopIteration)
        ∧ ((N ≤ length it)%nat → ∃ a, m it = Ok (a, drop N it)).

(** The initial sequence a description stands for: class [c] repeated
    [car_count] times, class after class, numbering from [c0]. *)
Fixpoint expand (c0 : Z) (classes : list class_description) : list Z :=
  match classes with
  | [] => []
  | cd :: rest => replicate (Z.to_nat (car_count cd)) c0 ++ expand (c0 + 1) rest
  end.

(** The row of booleans of a class: an indicator counts when it is [1]. *)
Definition class_row (cd : class_description) : list bool :=
  (λ x, bool_decide (x = 1)) <$> indicators cd.

(** The instance a description stands for. *)
Definition instance_of (d : description) : CarSequencingProblem :=
  {| nb_positions := d_positions d;
     nb_options := len (d_max d);
     max_cars_per_window := d_max d;
     window_size := d_window d;
     options := class_row <$> d_classes d;
     initial_sequence := expand 0 (d_classes d) |}.

Definition total_cars (d : description) : Z :=
  Reference.Zsum car_count (d_classes d).

(** ** Further instances and helpers of the proofs *)

(** One option whose window of five does not fit the four positions, next to
    the option of the scenario. *)
Definition long_window : CarSequencingProblem := {|
  nb_positions := 4;
  nb_options := 2;
  max_cars_per_window := [1; 0];
  window_size := [2; 5];
  options := [[true; true]; [false; true]];
  initial_sequence := [0; 0; 1; 1]
|}.

(** One position, one option that no window may hold: the single window
    exceeds the limit by [10^9]. *)
Definition negative_limit : CarSequencingProblem := {|
  nb_positions := 1;
  nb_options := 1;
  max_cars_per_window := [-999999999];
  window_size := [1];
  options := [[true]];
  initial_sequence := [0]
|}.

(** The description whose tokens are [two_classes]. *)
Definition two_classes_description : description := {|
  d_positions := 4;
  d_max := [1];
  d_window := [2];
  d_classes := [ {| class_index := 0; car_count := 2; indicators := [1] |};
                 {| class_index := 1; car_count := 2; indicators := [0] |} ]
|}.

(** [load_from_iter] after the three counts, cut in two for the proofs:
    lines 59-73, what is read, *)
Definition read_fields (nb_opts nb_classes : Z)
    : iter (list Z * list Z * load_state) :=
  maxima ← next_list nb_opts;
  sizes ← next_list nb_opts;
  st ← for_each_it (range nb_classes) (load_class nb_opts)
         {| nb_cars := []; ld_options := []; ld_initial_sequence := [] |};
  mret (maxima, sizes, st).

(** and lines 74-75, the check and the object that results. *)
Definition check_positions (positions nb_opts : Z)
    (fields : list Z * list Z * load_state) : iter CarSequencingProblem :=
  let '(maxima, sizes, st) := fields in
  if negb (bool_decide (len (ld_initial_sequence st) = positions))
  then raise ValueError
  else mret {| nb_positions := positions;
               nb_options := nb_opts;
               max_cars_per_window := maxima;
               window_size := sizes;
               options := ld_options st;
               initial_sequence := ld_initial_sequence st |}.

(** The number of times class [c] occurs in a sequence. *)
Definition occurrences (c : Z) (l : list Z) : Z := len (filter (λ x, x = c) l).

(** ** The random candidate *)

(** [random_solution].  [shuffle] stands for [random.shuffle]: from the state
    [g] of the generator it rearranges the list and leaves a new state. *)
Definition random_solution {G : Type} (shuffle : G → list Z → list Z * G)
    (self : CarSequencingProblem) (g : G) : pyobj * G :=
  let sol := range (nb_positions self) in
  let '(sol, g) := shuffle g sol in
  (PyList sol, g).

(** ** Further instances *)

(** Two positions and one option whose window has no position and whose
    limit is below zero. *)
Definition empty_window : CarSequencingProblem := {|
  nb_positions := 2;
  nb_options := 1;
  max_cars_per_window := [-3];
  window_size := [0];
  options := [[true]];
  initial_sequence := [0; 0]
|}.

(** Three positions announced, two cars given: what the constructor accepts
    when the parameters are passed one by one. *)
Definition short_plan : CarSequencingProblem := {|
  nb_positions := 3;
  nb_options := 1;
  max_cars_per_window := [1];
  window_size := [2];
  options := [[true]];
  initial_sequence := [0; 0]
|}.

(** [solution[::-1]]: the same kind of object, its items in reverse order. *)
Definition reversed (solution : pyobj) : pyobj :=
  match solution with
  | PyList l => PyList (reverse l)
  | PyTuple l => PyTuple (reverse l)
  | PySequence l => PySequence (reverse l)
  | PyNone => PyNone
  end.

(** A shuffle that needs no randomness, to run [random_solution] on. *)
Definition shuffle_backwards (g : unit) (l : list Z) : list Z * unit :=
  (reverse l, g).

(** What the loader builds from the position and option counts it has read
    and from the rest of a description. *)
Definition loaded (positions nb_opts : Z) (d : description)
    : CarSequencingProblem :=
  {| nb_positions := positions;
     nb_options := nb_opts;
     max_cars_per_window := d_max d;
     window_size := d_window d;
     options := class_row <$> d_classes d;
     initial_sequence := expand 0 (d_classes d) |}.

(** Two cars of class 0 and a class whose number of cars is below zero. *)
Definition negative_count_description : description := {|
  d_positions := 2;
  d_max := [1];
  d_window := [1];
  d_classes := [ {| class_index := 0; car_count := 2; indicators := [1] |};
                 {| class_index := 1; car_count := -1; indicators := [0] |} ]
|}.

(** [two_classes_description] with other index tokens and another way of
    writing "not required". *)
Definition relabelled_description : description := {|
  d_positions := 4;
  d_max := [1];
  d_window := [2];
  d_classes := [ {| class_index := 7; car_count := 2; indicators := [1] |};
                 {| class_index := 7; car_count := 2; indicators := [5] |} ]
|}.

(** [options[c][o] = True] on an otherwise unchanged instance. *)
Definition with_requirement (self : CarSequencingProblem) (c o : nat)
    : CarSequencingProblem :=
  {| nb_positions := nb_positions self;
     nb_options := nb_options self;
     max_cars_per_window := max_cars_per_window self;
     window_size := window_size self;
     options := alter (<[o := true]>) c (options self);
     initial_sequence := initial_sequence self |}.

(** Three cars of class 0 and a class whose number of cars is below zero:
    the numbers add up to the two positions announced. *)
Definition surplus_description : description := {|
  d_positions := 2;
  d_max := [1];
  d_window := [1];
  d_classes := [ {| class_index := 0; car_count := 3; indicators := [1] |};
                 {| class_index := 1; car_count := -1; indicators := [0] |} ]
|}.

(** [two_classes_description] announcing five positions for its four cars. *)
Definition one_car_missing_description : description := {|
  d_positions := 5;
  d_max := [1];
  d_window := [2];
  d_classes := [ {| class_index := 0; car_count := 2; indicators := [1] |};
                 {| class_index := 1; car_count := 2; indicators := [0] |} ]
|}.

(** ** Candidates whose items need not be ints

    [evaluate_solution] above is the evaluator on candidates whose items are
    Python ints.  What the same lines do with other items is kept here: an
    item is an int, a float (one whose value is an integer, such as [2.0]) or
    [None]. *)
Inductive pyvalue : Type :=
  | VInt (z : Z)
  | VFloat (z : Z)
  | VNone.

Inductive candidate : Type :=
  | CList (items : list pyvalue)
  | CTuple (items : list pyvalue)
  | CSequence (items : list pyvalue)
  | CNoLength.

(** [isinstance(solution, (list, tuple))] *)
Definition isinstance_list_tuple_any (solution : candidate) : bool :=
  match solution with
  | CList _ | CTuple _ => true
  | CSequence _ | CNoLength => false
  end.

Definition values_of (solution : candidate) : list pyvalue :=
  match solution with
  | CList l | CTuple l | CSequence l => l
  | CNoLength => []
  end.

(** [len(solution)] *)
Definition len_any (solution : candidate) : result Z :=
  match solution with
  | CList l | CTuple l | CSequence l => Ok (len l)
  | CNoLength => Raise TypeError
  end.

(** The number an item compares as; [None] compares with nothing. *)
Definition number (v : pyvalue) : option Z :=
  match v with
  | VInt z | VFloat z => Some z
  | VNone => None
  end.

(** [x < y] between two items. *)
Definition value_lt (x y : pyvalue) : result bool :=
  match number x, number y with
  | Some a, Some b => Ok (a <? b)
  | _, _ => Raise TypeError
  end.

(** [sorted(l)] as a stable insertion sort on [<].  Python sorts with another
    algorithm; what can be observed is the same, the stably sorted list or
    the [TypeError] of a comparison, because in a list of two or more every
    item takes part in a comparison, and a list of one is returned without
    any. *)
Fixpoint insert_value (x : pyvalue) (l : list pyvalue)
    : result (list pyvalue) :=
  match l with
  | [] => Ok [x]
  | y :: l' =>
    below ← value_lt y x;
    if below : bool
    then l'' ← insert_value x l'; mret (y :: l'')
    else mret (x :: y :: l')
  end.

Fixpoint sorted_values (l : list pyvalue) : result (list pyvalue) :=
  match l with
  | [] => Ok []
  | x :: l' => s ← sorted_values l'; insert_value x s
  end.

(** [v == z] between an item and an int: [1.0 == 1], and [None] equals no
    int. *)
Definition value_eq (v : pyvalue) (z : Z) : bool :=
  match number v with
  | Some a => bool_decide (a = z)
  | None => false
  end.

(** [l == r] between a list of items and a list of ints. *)
Fixpoint values_eq (l : list pyvalue) (r : list Z) : bool :=
  match l, r with
  | [], [] => true
  | v :: l', z :: r' => value_eq v z && values_eq l' r'
  | _, _ => false
  end.

(** [l[i]]: an index that is not an int raises [TypeError]. *)
Definition getitem_value {A : Type} (l : list A) (i : pyvalue) : result A :=
  match i with
  | VInt z => getitem l z
  | VFloat _ | VNone => Raise TypeError
  end.

(** Lines 93-114 on such a candidate. *)
Definition evaluate_solution_any (self : CarSequencingProblem)
    (solution : candidate) : result pynum :=
  if negb (isinstance_list_tuple_any solution) then Ok PENALTY
  else
    n ← len_any solution;
    if negb (bool_decide (n = nb_positions self)) then Ok PENALTY
    else
      s ← sorted_values (values_of solution);
      if negb (values_eq s (range (nb_positions self))) then Ok PENALTY
      else
        sequence ← comprehension (getitem_value (initial_sequence self))
                      (values_of solution);
        scan self sequence.

(** A candidate whose items are ints, among the candidates of any kind. *)
Definition of_pyobj (solution : pyobj) : candidate :=
  match solution with
  | PyList l => CList (VInt <$> l)
  | PyTuple l => CTuple (VInt <$> l)
  | PySequence l => CSequence (VInt <$> l)
  | PyNone => CNoLength
  end.

(** * Facts on the primitives *)

(** Closes a goal quantified over the members of an explicit list. *)
Ltac finite_members :=
  let x := fresh "x" in
  let Hx := fresh "Hx" in
  intros x Hx;
  repeat (apply elem_of_cons in Hx as [->|Hx]; [done|]);
  by apply elem_of_nil in Hx.

Section primitives.
Context {A : Type}.
Implicit Types (l : list A) (i : Z).

Lemma len_nonneg l : 0 ≤ len l.
Proof. unfold len. lia. Qed.

Lemma len_app l1 l2 : len (l1 ++ l2) = len l1 + len l2.
Proof. unfold len. rewrite length_app. lia. Qed.

Lemma getitem_lookup l i x :
  0 ≤ i → l !! Z.to_nat i = Some x → getitem l i = Ok x.
Proof.
  intros Hi Hx. unfold getitem.
  destruct (i <? 0) eqn:Hneg; [lia|]. cbn. rewrite Hneg, Hx. done.
Qed.

Lemma getitem_at_index (d : A) l i :
  0 ≤ i < len l → getitem l i = Ok (Reference.at_index d l i).
Proof.
  unfold len. intros Hi.
  destruct (lookup_lt_is_Some_2 l (Z.to_nat i)) as [x Hx]; [lia|].
  unfold Reference.at_index. destruct (i <? 0) eqn:Hneg; [lia|].
  rewrite (nth_lookup_Some _ _ _ _ Hx). apply getitem_lookup; [lia|done].
Qed.

Lemma at_index_elem_of (d : A) l i :
  0 ≤ i < len l → Reference.at_index d l i ∈ l.
Proof.
  unfold len. intros Hi.
  destruct (lookup_lt_is_Some_2 l (Z.to_nat i)) as [x Hx]; [lia|].
  unfold Reference.at_index. destruct (i <? 0) eqn:Hneg; [lia|].
  rewrite (nth_lookup_Some _ _ _ _ Hx). eapply list_elem_of_lookup_2, Hx.
Qed.
End primitives.

Lemma elem_of_range x n : x ∈ range n ↔ 0 ≤ x < n.
Proof.
  unfold range. rewrite list_elem_of_fmap. split.
  - intros (k & -> & Hk). apply elem_of_seq in Hk. lia.
  - intros Hx. exists (Z.to_nat x). split; [lia|]. apply elem_of_seq. lia.
Qed.

Lemma len_range n : 0 ≤ n → len (range n) = n.
Proof. intros Hn. unfold len, range. rewrite length_fmap, length_seq. lia. Qed.

Lemma range_nonpos n : n ≤ 0 → range n = [].
Proof. intros Hn. unfold range. replace (Z.to_nat n) with 0%nat by lia. done. Qed.

Lemma range_interval n : range n = Reference.interval 0 n.
Proof.
  unfold range, Reference.interval. rewrite Z.sub_0_r.
  apply list_fmap_ext. intros _ k _. lia.
Qed.

Lemma interval_shift j w :
  Reference.interval j (j + w) = (λ k, j + k) <$> range w.
Proof.
  unfold range, Reference.interval. rewrite <- list_fmap_compose.
  replace (j + w - j) with w by lia. done.
Qed.

(** [range(n)] is increasing, so it is its own sorted form. *)
Lemma Sorted_range n : Sorted Z.le (range n).
Proof.
  unfold range. generalize (Z.to_nat n) as m. intros m. generalize 0%nat as a.
  induction m as [|m IH]; intros a; cbn; [constructor|].
  constructor; [apply IH|]. destruct m; cbn; constructor. lia.
Qed.

Lemma sorted_permutation l : sorted l ≡ₚ l.
Proof. apply merge_sort_Permutation. Qed.

(** The test of line 96 holds exactly of the permutations of [range(n)]. *)
Lemma sorted_eq_range l n : sorted l = range n ↔ l ≡ₚ range n.
Proof.
  split.
  - intros <-. symmetry. apply sorted_permutation.
  - intros Hperm. apply (Sorted_unique Z.le).
    + apply Sorted_merge_sort; apply _.
    + apply Sorted_range.
    + rewrite <- Hperm. apply sorted_permutation.
Qed.

Lemma permutation_range_bounds l n x : l ≡ₚ range n → x ∈ l → 0 ≤ x < n.
Proof. intros Hperm Hx. rewrite Hperm in Hx. by apply elem_of_range. Qed.

Lemma permutation_range_len l n : l ≡ₚ range n → 0 ≤ n → len l = n.
Proof.
  intros Hperm Hn. unfold len. rewrite (Permutation_length Hperm).
  by apply len_range.
Qed.

(** * Loops that cannot raise are sums and maps *)

Section loops.
Context {A : Type}.
Implicit Types (xs : list A).

Lemma for_each_sum xs (body : A → Z → result Z) (g : A → Z) s :
  (∀ x t, x ∈ xs → body x t = Ok (t + g x)) →
  for_each xs body s = Ok (s + Reference.Zsum g xs).
Proof.
  unfold Reference.Zsum.
  revert s. induction xs as [|x xs IH]; intros s Hbody; cbn.
  - f_equal. lia.
  - rewrite Hbody by left. cbn. rewrite IH.
    + f_equal. lia.
    + intros y t Hy. apply Hbody. by right.
Qed.

Lemma comprehension_fmap {B : Type} (f : A → result B) (g : A → B) xs :
  (∀ x, x ∈ xs → f x = Ok (g x)) → comprehension f xs = Ok (g <$> xs).
Proof.
  unfold comprehension. induction xs as [|x xs IH]; intros Hf; cbn; [done|].
  rewrite Hf by left. cbn. rewrite IH; [done|].
  intros y Hy. apply Hf. by right.
Qed.

Lemma Zsum_ext (f g : A → Z) xs :
  (∀ x, x ∈ xs → f x = g x) → Reference.Zsum f xs = Reference.Zsum g xs.
Proof.
  unfold Reference.Zsum.
  induction xs as [|x xs IH]; intros Hfg; cbn; [done|].
  rewrite Hfg by left. rewrite IH; [done|].
  intros y Hy. apply Hfg. by right.
Qed.

Lemma Zsum_fmap {B : Type} (f : B → Z) (h : A → B) xs :
  Reference.Zsum f (h <$> xs) = Reference.Zsum (λ x, f (h x)) xs.
Proof.
  unfold Reference.Zsum. induction xs as [|x xs IH]; cbn; [done|].
  by rewrite IH.
Qed.

Lemma Zsum_nonneg (f : A → Z) xs :
  (∀ x, x ∈ xs → 0 ≤ f x) → 0 ≤ Reference.Zsum f xs.
Proof.
  unfold Reference.Zsum.
  induction xs as [|x xs IH]; intros Hf; cbn; [lia|].
  assert (0 ≤ f x) by (apply Hf; left).
  assert (0 ≤ foldr (λ y acc, f y + acc) 0 xs)
    by (apply IH; intros y Hy; apply Hf; by right).
  lia.
Qed.

Lemma len_filter_Zsum (P : A → Prop) `{!∀ x, Decision (P x)} xs :
  len (filter P xs) = Reference.Zsum (λ x, if decide (P x) then 1 else 0) xs.
Proof.
  unfold len, Reference.Zsum. induction xs as [|x xs IH]; [done|].
  rewrite filter_cons. cbn [foldr]. destruct (decide (P x)); cbn [length]; lia.
Qed.
End loops.

(** * The evaluator computes the reference objective *)

Lemma reconstruct_in_range self items :
  (∀ i, i ∈ items → 0 ≤ i < len (initial_sequence self)) →
  reconstruct self items = Ok (Reference.sequence_of self items).
Proof.
  intros Hitems. unfold reconstruct. apply comprehension_fmap.
  intros i Hi. by apply getitem_at_index, Hitems.
Qed.

Section scoring.
Variable self : CarSequencingProblem.
Variable items : list Z.
Hypothesis Hwf : well_formed self.
Hypothesis Hlen : len items = nb_positions self.
Hypothesis Hitems : ∀ i, i ∈ items → 0 ≤ i < nb_positions self.

Local Abbreviation sequence := (Reference.sequence_of self items).

Lemma len_sequence : len sequence = nb_positions self.
Proof.
  unfold Reference.sequence_of, len.
  rewrite length_fmap. exact Hlen.
Qed.

Lemma reconstruct_sequence : reconstruct self items = Ok sequence.
Proof.
  apply reconstruct_in_range. intros i Hi.
  rewrite (wf_initial _ Hwf). by apply Hitems.
Qed.

Lemma sequence_class_bounds k :
  0 ≤ k < nb_positions self →
  0 ≤ Reference.at_index 0 sequence k < len (options self).
Proof.
  intros Hk. apply (wf_classes _ Hwf).
  assert (Reference.at_index 0 sequence k ∈ sequence) as Hin
    by (apply at_index_elem_of; by rewrite len_sequence).
  unfold Reference.sequence_of in *.
  apply list_elem_of_fmap in Hin as (i & -> & Hi).
  apply at_index_elem_of. rewrite (wf_initial _ Hwf). by apply Hitems.
Qed.

Lemma window_count_reference o j :
  0 ≤ o < nb_options self →
  0 ≤ j →
  j + Reference.at_index 0 (window_size self) o ≤ nb_positions self →
  window_count self sequence o j (Reference.at_index 0 (window_size self) o)
  = Ok (Reference.count self sequence o j).
Proof.
  intros Ho Hj Hfit. unfold window_count, Reference.count.
  rewrite len_filter_Zsum, interval_shift, Zsum_fmap.
  rewrite <- (Z.add_0_l (Reference.Zsum _ _)).
  apply for_each_sum. intros k t Hk. apply elem_of_range in Hk.
  rewrite (getitem_at_index 0) by (rewrite len_sequence; lia). cbn.
  pose proof (sequence_class_bounds (j + k)) as Hclass.
  rewrite (getitem_at_index []) by (apply Hclass; lia). cbn.
  rewrite (getitem_at_index false).
  2:{ rewrite (wf_rows _ Hwf); [done|].
      apply at_index_elem_of, Hclass. lia. }
  cbn. unfold Reference.class_options.
  destruct (Reference.at_index false _ o); case_decide; try done;
    f_equal; lia.
Qed.

Lemma window_pass_reference o j total :
  0 ≤ o < nb_options self →
  0 ≤ j →
  j + Reference.at_index 0 (window_size self) o ≤ nb_positions self →
  window_pass self sequence o
    (Reference.at_index 0 (window_size self) o)
    (Reference.at_index 0 (max_cars_per_window self) o) j total
  = Ok (total + Reference.excess self sequence o j).
Proof.
  intros Ho Hj Hfit. unfold window_pass.
  rewrite window_count_reference by done. cbn. unfold Reference.excess.
  destruct (_ <? _) eqn:Hcmp; f_equal; lia.
Qed.

Lemma option_pass_reference o total :
  0 ≤ o < nb_options self →
  option_pass self sequence o total
  = Ok (total + Reference.option_violations self sequence o).
Proof.
  intros Ho. unfold option_pass.
  rewrite (getitem_at_index 0 (window_size self))
    by (by rewrite (wf_window _ Hwf)).
  cbn.
  rewrite (getitem_at_index 0 (max_cars_per_window self))
    by (by rewrite (wf_max _ Hwf)).
  cbn.
  unfold Reference.option_violations, Reference.window_starts.
  rewrite <- range_interval. apply for_each_sum.
  intros j t Hj. apply elem_of_range in Hj.
  apply window_pass_reference; [done|lia..].
Qed.

Lemma score_reference :
  score self items = Ok (PyInt (Reference.objective self items)).
Proof.
  unfold score. rewrite reconstruct_sequence. cbn. unfold scan.
  rewrite (for_each_sum _ _ (Reference.option_violations self sequence)).
  - cbn. rewrite range_interval. done.
  - intros o t Ho. apply elem_of_range in Ho. by apply option_pass_reference.
Qed.

Lemma objective_nonneg : 0 ≤ Reference.objective self items.
Proof.
  apply Zsum_nonneg. intros o _. apply Zsum_nonneg. intros j _.
  unfold Reference.excess. lia.
Qed.
End scoring.

(** * Validation *)

Lemma evaluate_accepted self solution :
  passes_validation self solution = true →
  evaluate_solution self solution = score self (items_of solution).
Proof.
  unfold passes_validation, evaluate_solution. intros Hpass.
  apply andb_prop in Hpass as [Hpass Hsorted].
  apply andb_prop in Hpass as [Hinst Hlen].
  rewrite Hinst. cbn [negb].
  destruct solution; try discriminate; cbn in *;
    rewrite Hlen, Hsorted; done.
Qed.

Lemma evaluate_rejected self solution :
  passes_validation self solution = false →
  evaluate_solution self solution = Ok PENALTY.
Proof.
  unfold passes_validation, evaluate_solution. intros Hfail.
  destruct solution; cbn in *; try done;
    destruct (bool_decide (len items = _)); cbn in *; try done;
    rewrite Hfail; done.
Qed.

(** The scored branch returns a Python int or raises; it never produces the
    float. *)
Lemma score_is_int self items r :
  score self items = Ok r → ∃ v, r = PyInt v.
Proof.
  unfold score, scan.
  destruct (reconstruct self items) as [sequence|]; cbn; [|done].
  destruct (for_each _ _ _) as [v|]; cbn; [|done].
  intros [= <-]. by exists v.
Qed.

Lemma passes_validation_spec self solution :
  passes_validation self solution = true ↔
  isinstance_list_tuple solution = true
  ∧ len (items_of solution) = nb_positions self
  ∧ sorted (items_of solution) = range (nb_positions self).
Proof.
  unfold passes_validation.
  rewrite !andb_true_iff, !bool_decide_eq_true. tauto.
Qed.

Lemma valid_permutation_passes self solution :
  0 ≤ nb_positions self →
  isinstance_list_tuple solution = true →
  valid_permutation self (items_of solution) →
  passes_validation self solution = true.
Proof.
  intros Hn Hinst Hperm. apply passes_validation_spec.
  split_and!; [done| |].
  - by apply permutation_range_len.
  - by apply sorted_eq_range.
Qed.

Lemma well_formed_positions self : well_formed self → 0 ≤ nb_positions self.
Proof. intros Hwf. rewrite <- (wf_initial _ Hwf). apply len_nonneg. Qed.

Lemma well_formed_scenario : well_formed scenario.
Proof.
  split; cbn; try done; finite_members.
Qed.

Lemma evaluate_valid_permutation self solution :
  well_formed self →
  isinstance_list_tuple solution = true →
  valid_permutation self (items_of solution) →
  evaluate_solution self solution
  = Ok (PyInt (Reference.objective self (items_of solution))).
Proof.
  intros Hwf Hinst Hperm.
  rewrite evaluate_accepted
    by (apply valid_permutation_passes; auto using well_formed_positions).
  apply score_reference; [done| |].
  - apply permutation_range_len; auto using well_formed_positions.
  - intros i Hi. by eapply permutation_range_bounds.
Qed.

(** * Candidates of ints among the candidates of any kind *)

Lemma insert_value_int x s :
  StronglySorted Z.le s →
  ∃ s', insert_value (VInt x) (VInt <$> s) = Ok (VInt <$> s')
        ∧ StronglySorted Z.le s' ∧ s' ≡ₚ x :: s.
Proof.
  induction s as [|y s IH]; intros Hsorted; cbn.
  - exists [x]. split_and!; [done|repeat constructor|done].
  - apply StronglySorted_cons in Hsorted as [Hy Hsorted].
    destruct (y <? x) eqn:Hcmp; cbn.
    + destruct (IH Hsorted) as (s' & -> & Hsorted' & Hperm). cbn.
      exists (y :: s'). split_and!; [done| |by rewrite Hperm, Permutation_swap].
      apply StronglySorted_cons. split; [|done].
      rewrite Hperm. constructor; [lia|done].
    + exists (x :: y :: s). split_and!; [done| |done].
      apply StronglySorted_cons. split.
      * constructor; [lia|]. eapply Forall_impl; [done|]. cbn. intros z Hz. lia.
      * by apply StronglySorted_cons.
Qed.

(** On ints the insertion sort returns what [sorted] returns. *)
Lemma sorted_values_int l :
  sorted_values (VInt <$> l) = Ok (VInt <$> sorted l).
Proof.
  assert (∃ s, sorted_values (VInt <$> l) = Ok (VInt <$> s)
               ∧ StronglySorted Z.le s ∧ s ≡ₚ l) as (s & -> & Hsorted & Hperm).
  { induction l as [|x l IH]; cbn.
    - exists []. split_and!; [done|constructor|done].
    - destruct IH as (s & -> & Hsorted & Hperm). cbn.
      destruct (insert_value_int x s Hsorted) as (s' & -> & Hsorted' & Hperm').
      exists s'. split_and!; [done..|]. by rewrite Hperm', Hperm. }
  do 2 f_equal. apply (StronglySorted_unique Z.le); [done| |].
  - apply StronglySorted_merge_sort; apply _.
  - rewrite Hperm. symmetry. apply sorted_permutation.
Qed.

Lemma values_eq_int s r : values_eq (VInt <$> s) r = bool_decide (s = r).
Proof.
  revert r. induction s as [|x s IH]; intros [|z r]; cbn; try done.
  rewrite IH. unfold value_eq. cbn.
  destruct (decide (x = z)) as [->|Hne].
  - rewrite bool_decide_eq_true_2 by done. cbn.
    apply bool_decide_ext. split; [by intros ->|by intros [= ->]].
  - rewrite bool_decide_eq_false_2 by done. cbn. symmetry.
    apply bool_decide_eq_false_2. by intros [= -> ->].
Qed.

Lemma comprehension_getitem_int {A : Type} (l : list A) items :
  comprehension (getitem_value l) (VInt <$> items)
  = comprehension (getitem l) items.
Proof.
  unfold comprehension. induction items as [|i items IH]; cbn; [done|].
  by rewrite IH.
Qed.

(** On a candidate whose items are ints the two evaluators are one. *)
Lemma evaluate_solution_any_int self solution :
  evaluate_solution_any self (of_pyobj solution)
  = evaluate_solution self solution.
Proof.
  assert (∀ l,
    (s ← sorted_values (VInt <$> l);
     if negb (values_eq s (range (nb_positions self))) then Ok PENALTY
     else sequence ← comprehension (getitem_value (initial_sequence self))
                       (VInt <$> l);
          scan self sequence)
    = (if negb (bool_decide (sorted l = range (nb_positions self)))
       then Ok PENALTY
       else score self l)) as Htests.
  { intros l. rewrite sorted_values_int. cbn [mbind result_bind].
    rewrite values_eq_int. unfold score, reconstruct.
    by rewrite comprehension_getitem_int. }
  unfold evaluate_solution_any, evaluate_solution.
  destruct solution as [l|l|l|]; try done.
  - cbn [of_pyobj isinstance_list_tuple_any isinstance_list_tuple negb
         len_any len_obj values_of items_of mbind result_bind].
    unfold len. rewrite length_fmap.
    destruct (negb (bool_decide _)); [done|]. apply Htests.
  - cbn [of_pyobj isinstance_list_tuple_any isinstance_list_tuple negb
         len_any len_obj values_of items_of mbind result_bind].
    unfold len. rewrite length_fmap.
    destruct (negb (bool_decide _)); [done|]. apply Htests.
Qed.

(** * The scenario of the documentation *)

Example scenario_identity :
  evaluate_solution scenario (PyList [0; 1; 2; 3]) = Ok (PyInt 1).
Proof. vm_compute. reflexivity. Qed.

Example scenario_interleaved :
  evaluate_solution scenario (PyList [0; 2; 1; 3]) = Ok (PyInt 0).
Proof. vm_compute. reflexivity. Qed.

Example scenario_duplicate :
  evaluate_solution scenario (PyTuple [0; 0; 1; 3]) = Ok PENALTY.
Proof. vm_compute. reflexivity. Qed.

Example load_two_classes : _load_instance two_classes = Ok scenario.
Proof. vm_compute. reflexivity. Qed.

(** The penalty is a float and a score an int: an accepted candidate may
    score the very value of the penalty, as another Python object. *)
Example score_of_a_billion :
  evaluate_solution negative_limit (PyList [0]) = Ok (PyInt 1000000000)
  ∧ PENALTY = PyFloat 1000000000.
Proof. vm_compute. auto. Qed.

(** * Claims on the evaluator *)

(** C1. On an instance that satisfies the invariants of the data model, a list
    or tuple holding a permutation of [0 .. nb_positions - 1] is scored with
    the reference objective: the sum over the options and over the window
    starts [0 .. nb_positions - window_size[o]] of
    [max(0, count - max_cars_per_window[o])], every window counted on its
    own. *)
Theorem evaluate_solution_reference self solution :
  well_formed self →
  isinstance_list_tuple solution = true →
  valid_permutation self (items_of solution) →
  evaluate_solution self solution
  = Ok (PyInt (Reference.objective self (items_of solution))).
Proof. apply evaluate_valid_permutation. Qed.

Lemma evaluate_solution_reference_witness :
  evaluate_solution scenario (PyTuple [3; 0; 1; 2])
  = Ok (PyInt (Reference.objective scenario [3; 0; 1; 2])).
Proof.
  apply (evaluate_solution_reference scenario (PyTuple [3; 0; 1; 2])).
  - exact well_formed_scenario.
  - reflexivity.
  - apply sorted_eq_range. vm_compute. reflexivity.
Defined.

(** C2, as stated, fails twice.  A sequence that is neither a list nor a
    tuple gets the penalty although it has the right length and sorts to
    [0 .. nb_positions - 1]; and a list of four items of which one is [None]
    is no permutation, yet line 96 raises [TypeError] and no penalty is
    returned. *)
Lemma sentinel_on_valid_sequence :
  (evaluate_solution_any scenario (CSequence [VInt 0; VInt 2; VInt 1; VInt 3])
   = Ok PENALTY
   ∧ len [VInt 0; VInt 2; VInt 1; VInt 3] = nb_positions scenario
   ∧ sorted_values [VInt 0; VInt 2; VInt 1; VInt 3]
     = Ok (VInt <$> range (nb_positions scenario)))
  ∧ evaluate_solution_any scenario (CList [VInt 0; VNone; VInt 2; VInt 3])
    = Raise TypeError.
Proof. vm_compute. auto. Qed.

(** C2, amended.  On every candidate whose items are ints, be it a list, a
    tuple, another sequence or an object without a length, the evaluator
    returns the penalty exactly when the candidate is not a list or tuple, or
    its length differs from [nb_positions], or its sorted items are not
    [0 .. nb_positions - 1]; the penalty is then returned whatever the other
    fields of the instance hold, and a list or tuple that passes the three
    tests is handed to the scoring pass. *)
Theorem sentinel_iff_rejected self solution :
  (evaluate_solution_any self (of_pyobj solution) = Ok PENALTY ↔
     isinstance_list_tuple solution = false
     ∨ len (items_of solution) ≠ nb_positions self
     ∨ sorted (items_of solution) ≠ range (nb_positions self))
  ∧ (evaluate_solution_any self (of_pyobj solution) = Ok PENALTY →
     ∀ other, nb_positions other = nb_positions self →
              evaluate_solution_any other (of_pyobj solution) = Ok PENALTY)
  ∧ (evaluate_solution_any self (of_pyobj solution) ≠ Ok PENALTY →
     evaluate_solution_any self (of_pyobj solution)
     = score self (items_of solution)).
Proof.
  rewrite evaluate_solution_any_int.
  assert (evaluate_solution self solution = Ok PENALTY ↔
          passes_validation self solution = false) as Hiff.
  { destruct (passes_validation self solution) eqn:Hpass.
    - rewrite evaluate_accepted by done. split; [|done].
      intros Hscore. apply score_is_int in Hscore as [v Hv]. discriminate.
    - rewrite evaluate_rejected by done. done. }
  split_and!.
  - rewrite Hiff, <- not_true_iff_false, passes_validation_spec.
    rewrite <- not_true_iff_false.
    destruct (decide (len (items_of solution) = nb_positions self));
      destruct (decide (sorted (items_of solution) = range (nb_positions self)));
      tauto.
  - intros Hpen other Hsame. rewrite evaluate_solution_any_int.
    apply evaluate_rejected.
    apply Hiff in Hpen. unfold passes_validation in *. by rewrite Hsame.
  - intros Hscored. apply evaluate_accepted, not_false_iff_true.
    intros Hpass. by apply Hscored, Hiff.
Qed.

(** C3, as stated, fails: on an instance that satisfies the invariants a list
    of floats holding the identity permutation passes the tests of lines
    94-97, since [0.0 == 0], and line 100 raises [TypeError]. *)
Lemma float_permutation_raises :
  well_formed scenario
  ∧ evaluate_solution_any scenario
      (CList [VFloat 0; VFloat 1; VFloat 2; VFloat 3])
    = Raise TypeError.
Proof. split; [exact well_formed_scenario|]. vm_compute. reflexivity. Qed.

(** C3, amended.  On an instance that satisfies the invariants the evaluator
    never raises on a candidate whose items are ints, be it a list, a tuple,
    another sequence or an object without a length: a candidate that fails
    one of the tests gets the penalty, and every other one gets an integer
    score of zero or more. *)
Theorem evaluate_solution_total self solution :
  well_formed self →
  (passes_validation self solution = false
   ∧ evaluate_solution_any self (of_pyobj solution) = Ok PENALTY)
  ∨ (passes_validation self solution = true
     ∧ ∃ v, 0 ≤ v
            ∧ evaluate_solution_any self (of_pyobj solution) = Ok (PyInt v)).
Proof.
  intros Hwf. rewrite evaluate_solution_any_int.
  destruct (passes_validation self solution) eqn:Hpass.
  - right. split; [done|].
    pose proof Hpass as Hspec.
    apply passes_validation_spec in Hspec as (Hinst & Hlen & Hsorted).
    apply sorted_eq_range in Hsorted.
    exists (Reference.objective self (items_of solution)). split.
    + apply objective_nonneg.
    + by apply evaluate_valid_permutation.
  - left. split; [done|]. by apply evaluate_rejected.
Qed.

Lemma evaluate_solution_total_witness :
  (passes_validation scenario (PyList [0; 1; 1; 7]) = false
   ∧ evaluate_solution_any scenario (CList [VInt 0; VInt 1; VInt 1; VInt 7])
     = Ok PENALTY)
  ∨ (passes_validation scenario (PyList [0; 1; 1; 7]) = true
     ∧ ∃ v, 0 ≤ v
            ∧ evaluate_solution_any scenario
                (CList [VInt 0; VInt 1; VInt 1; VInt 7])
              = Ok (PyInt v)).
Proof.
  apply (evaluate_solution_total scenario (PyList [0; 1; 1; 7])).
  exact well_formed_scenario.
Defined.

(** C10. Every candidate that is not a list or a tuple gets the penalty,
    whatever it holds. *)
Theorem evaluate_solution_other_type self solution :
  isinstance_list_tuple solution = false →
  evaluate_solution self solution = Ok PENALTY.
Proof. intros Hinst. unfold evaluate_solution. by rewrite Hinst. Qed.

Lemma evaluate_solution_other_type_witness :
  sorted [0; 1; 2; 3] = range (nb_positions scenario)
  ∧ evaluate_solution scenario (PySequence [0; 1; 2; 3]) = Ok PENALTY.
Proof.
  split; [vm_compute; reflexivity|].
  apply (evaluate_solution_other_type scenario (PySequence [0; 1; 2; 3])).
  reflexivity.
Defined.

(** * The identity candidate *)

Lemma at_index_range {A : Type} (d : A) (l : list A) :
  Reference.at_index d l <$> range (len l) = l.
Proof.
  apply list_eq. intros i. unfold range, len.
  rewrite <- list_fmap_compose, list_lookup_fmap, Nat2Z.id.
  destruct (decide (i < length l)%nat) as [Hi|Hi].
  - rewrite lookup_seq_lt by done. cbn.
    destruct (lookup_lt_is_Some_2 l i Hi) as [x Hx]. rewrite Hx. f_equal.
    unfold Reference.at_index. destruct (_ <? 0) eqn:Hneg; [lia|].
    rewrite Nat2Z.id. by apply nth_lookup_Some.
  - rewrite lookup_seq_ge by lia. cbn. symmetry. apply lookup_ge_None. lia.
Qed.

Lemma range_valid_permutation self :
  valid_permutation self (range (nb_positions self)).
Proof. unfold valid_permutation. reflexivity. Qed.

(** C4. On an instance whose [initial_sequence] has [nb_positions] entries,
    the identity candidate [[0, 1, ..., nb_positions - 1]] is rebuilt into
    [initial_sequence] itself and is scored by the scan of [initial_sequence];
    when the instance satisfies all the invariants that score is the
    reference objective computed on [initial_sequence]. *)
Theorem identity_candidate self :
  len (initial_sequence self) = nb_positions self →
  reconstruct self (range (nb_positions self)) = Ok (initial_sequence self)
  ∧ evaluate_solution self (PyList (range (nb_positions self)))
    = scan self (initial_sequence self)
  ∧ (well_formed self →
     evaluate_solution self (PyList (range (nb_positions self)))
     = Ok (PyInt (Reference.objective_on self (initial_sequence self)))).
Proof.
  intros Hlen.
  assert (Reference.sequence_of self (range (nb_positions self))
          = initial_sequence self) as Hseq.
  { unfold Reference.sequence_of. rewrite <- Hlen. apply at_index_range. }
  assert (reconstruct self (range (nb_positions self))
          = Ok (initial_sequence self)) as Hrebuilt.
  { rewrite <- Hseq. apply reconstruct_in_range.
    intros i Hi. rewrite Hlen. by apply elem_of_range. }
  split_and!; [done| |].
  - rewrite evaluate_accepted.
    + unfold score. cbn [items_of]. by rewrite Hrebuilt.
    + apply valid_permutation_passes;
        [rewrite <- Hlen; apply len_nonneg|done|apply range_valid_permutation].
  - intros Hwf.
    rewrite evaluate_valid_permutation
      by auto using range_valid_permutation.
    cbn. unfold Reference.objective. by rewrite Hseq.
Qed.

Lemma identity_candidate_witness :
  reconstruct scenario [0; 1; 2; 3] = Ok [0; 0; 1; 1]
  ∧ evaluate_solution scenario (PyList [0; 1; 2; 3])
    = scan scenario [0; 0; 1; 1]
  ∧ evaluate_solution scenario (PyList [0; 1; 2; 3])
    = Ok (PyInt (Reference.objective_on scenario [0; 0; 1; 1])).
Proof.
  destruct (identity_candidate scenario eq_refl)
    as (Hrebuilt & Hscan & Hreference).
  split_and!; [exact Hrebuilt|exact Hscan|].
  exact (Hreference well_formed_scenario).
Defined.

(** * Options whose window is longer than the sequence *)

Lemma Zsum_without (f : Z → Z) (o : Z) (xs : list Z) :
  f o = 0 →
  Reference.Zsum f xs = Reference.Zsum f (filter (λ o', o' ≠ o) xs).
Proof.
  intros Hzero. unfold Reference.Zsum.
  induction xs as [|x xs IH]; [done|].
  rewrite filter_cons. destruct (decide (x ≠ o)) as [Hne|Heq]; cbn.
  - by rewrite IH.
  - apply dec_stable in Heq as ->. rewrite Hzero, IH. done.
Qed.

(** C5. When [window_size[o]] exceeds [nb_positions] the range of the window
    starts of option [o] is empty: the pass on [o] returns the running total
    unchanged, without raising, and the score of every accepted candidate is
    the sum of the violations of the other options. *)
Theorem oversized_window_contributes_nothing self o w :
  well_formed self →
  0 ≤ o < nb_options self →
  getitem (window_size self) o = Ok w →
  nb_positions self < w →
  range (nb_positions self - w + 1) = []
  ∧ (∀ sequence total, option_pass self sequence o total = Ok total)
  ∧ (∀ solution,
       isinstance_list_tuple solution = true →
       valid_permutation self (items_of solution) →
       evaluate_solution self solution
       = Ok (PyInt (Reference.Zsum
                      (Reference.option_violations self
                         (Reference.sequence_of self (items_of solution)))
                      (filter (λ o', o' ≠ o) (range (nb_options self)))))).
Proof.
  intros Hwf Ho Hw Hlong.
  assert (range (nb_positions self - w + 1) = []) as Hstarts
    by (apply range_nonpos; lia).
  rewrite (getitem_at_index 0) in Hw by (by rewrite (wf_window _ Hwf)).
  injection Hw as Hw.
  split_and!; [done| |].
  - intros sequence total. unfold option_pass.
    rewrite (getitem_at_index 0 (window_size self))
      by (by rewrite (wf_window _ Hwf)).
    cbn.
    rewrite (getitem_at_index 0 (max_cars_per_window self))
      by (by rewrite (wf_max _ Hwf)).
    cbn. by rewrite Hw, Hstarts.
  - intros solution Hinst Hperm.
    rewrite evaluate_valid_permutation by done. do 2 f_equal.
    unfold Reference.objective, Reference.objective_on.
    rewrite <- range_interval. apply Zsum_without.
    unfold Reference.option_violations, Reference.window_starts.
    by rewrite <- range_interval, Hw, Hstarts.
Qed.

Lemma well_formed_long_window : well_formed long_window.
Proof.
  split; cbn; try done; finite_members.
Qed.

Lemma oversized_window_contributes_nothing_witness :
  range (nb_positions long_window - 5 + 1) = []
  ∧ (∀ sequence total, option_pass long_window sequence 1 total = Ok total)
  ∧ (∀ solution,
       isinstance_list_tuple solution = true →
       valid_permutation long_window (items_of solution) →
       evaluate_solution long_window solution
       = Ok (PyInt (Reference.Zsum
                      (Reference.option_violations long_window
                         (Reference.sequence_of long_window
                            (items_of solution)))
                      (filter (λ o', o' ≠ 1) (range (nb_options long_window)))))).
Proof.
  apply (oversized_window_contributes_nothing long_window 1 5).
  - exact well_formed_long_window.
  - cbn. lia.
  - reflexivity.
  - cbn. lia.
Defined.

Example long_window_identity :
  evaluate_solution long_window (PyList [0; 1; 2; 3]) = Ok (PyInt 1).
Proof. vm_compute. reflexivity. Qed.

(** * Raising one limit *)

Section raising_a_limit.
Variable self : CarSequencingProblem.
Variable o : nat.
Variables m m' : Z.
Hypothesis Hold : max_cars_per_window self !! o = Some m.
Hypothesis Hle : m ≤ m'.

Lemma getitem_raised i limit :
  getitem (max_cars_per_window self) i = Ok limit →
  ∃ limit', getitem (<[o := m']> (max_cars_per_window self)) i = Ok limit'
            ∧ limit ≤ limit'.
Proof.
  unfold getitem, len. rewrite length_insert.
  set (k := if i <? 0 then _ else _). destruct (k <? 0); [done|].
  destruct (decide (o = Z.to_nat k)) as [<-|Hne].
  - rewrite Hold. intros [= <-].
    rewrite list_lookup_insert_eq by (by eapply lookup_lt_Some). eauto.
  - rewrite list_lookup_insert_ne by done.
    destruct (_ !! _) as [x|]; [|done]. intros [= ->].
    eexists. split; [done|lia].
Qed.

Lemma for_each_dominated {A : Type} (xs : list A)
    (body body' : A → Z → result Z) s s' r :
  (∀ x t t' u, t' ≤ t → body x t = Ok u →
               ∃ u', body' x t' = Ok u' ∧ u' ≤ u) →
  s' ≤ s →
  for_each xs body s = Ok r →
  ∃ r', for_each xs body' s' = Ok r' ∧ r' ≤ r.
Proof.
  intros Hbody. revert s s'.
  induction xs as [|x xs IH]; intros s s' Hs; cbn.
  - intros [= <-]. eauto.
  - destruct (body x s) as [u|] eqn:Hu; cbn; [|done]. intros Hrest.
    destruct (Hbody x s s' u Hs Hu) as (u' & -> & Hu'). cbn. eauto.
Qed.

Lemma window_pass_raised sequence o' w limit limit' j t t' u :
  limit ≤ limit' → t' ≤ t →
  window_pass self sequence o' w limit j t = Ok u →
  ∃ u', window_pass (with_max self o m') sequence o' w limit' j t' = Ok u'
        ∧ u' ≤ u.
Proof.
  intros Hlimit Ht. unfold window_pass.
  change (window_count (with_max self o m') sequence o' j w)
    with (window_count self sequence o' j w).
  destruct (window_count self sequence o' j w) as [count|]; cbn; [|done].
  intros [= <-]. eexists. split; [done|].
  destruct (limit <? count) eqn:H1; destruct (limit' <? count) eqn:H2; lia.
Qed.

Lemma option_pass_raised sequence o' t t' u :
  t' ≤ t →
  option_pass self sequence o' t = Ok u →
  ∃ u', option_pass (with_max self o m') sequence o' t' = Ok u' ∧ u' ≤ u.
Proof.
  intros Ht. unfold option_pass. cbn [with_max window_size nb_positions
    max_cars_per_window].
  destruct (getitem (window_size self) o') as [w|]; cbn; [|done].
  destruct (getitem (max_cars_per_window self) o') as [limit|] eqn:Hlimit;
    cbn; [|done].
  apply getitem_raised in Hlimit as (limit' & -> & Hlimit'). cbn.
  apply for_each_dominated; [|done].
  intros j s s' v Hs. by apply window_pass_raised.
Qed.

(** A higher limit on one option never gives a higher score, whenever the
    evaluator returns one. *)
Lemma evaluate_solution_raised solution s :
  evaluate_solution self solution = Ok (PyInt s) →
  ∃ s', evaluate_solution (with_max self o m') solution = Ok (PyInt s')
        ∧ s' ≤ s.
Proof.
  destruct (passes_validation self solution) eqn:Hpass.
  - rewrite !evaluate_accepted by done. unfold score, scan.
    change (reconstruct (with_max self o m')) with (reconstruct self).
    destruct (reconstruct self _) as [sequence|]; cbn; [|done].
    destruct (for_each _ _ _) as [v|] eqn:Hv; cbn; [|done].
    intros [= <-].
    eapply for_each_dominated in Hv as (v' & -> & Hv'); [by eauto| |done].
    intros o' t t' u Ht. by apply option_pass_raised.
  - by rewrite evaluate_rejected.
Qed.
End raising_a_limit.

(** C6. Replacing [max_cars_per_window[o]] by a larger value never gives a
    higher score: whenever the evaluator scores a candidate it scores it on
    the new instance too, not higher; and on an instance that satisfies the
    invariants every list or tuple holding a valid permutation is scored on
    both. *)
Theorem raising_limit_never_increases self (o : nat) m m' solution :
  max_cars_per_window self !! o = Some m →
  m ≤ m' →
  (∀ s, evaluate_solution self solution = Ok (PyInt s) →
        ∃ s', evaluate_solution (with_max self o m') solution = Ok (PyInt s')
              ∧ s' ≤ s)
  ∧ (well_formed self →
     isinstance_list_tuple solution = true →
     valid_permutation self (items_of solution) →
     ∃ s s',
       evaluate_solution self solution = Ok (PyInt s)
       ∧ evaluate_solution (with_max self o m') solution = Ok (PyInt s')
       ∧ s' ≤ s).
Proof.
  intros Hold Hle. split.
  - intros s. by apply (evaluate_solution_raised self o m m').
  - intros Hwf Hinst Hperm.
    pose proof (evaluate_valid_permutation self solution Hwf Hinst Hperm) as Hs.
    destruct (evaluate_solution_raised self o m m' Hold Hle solution _ Hs)
      as (s' & Hs' & Hle').
    eauto.
Qed.

Lemma raising_limit_never_increases_witness :
  ∃ s s',
    evaluate_solution scenario (PyList [0; 1; 2; 3]) = Ok (PyInt s)
    ∧ evaluate_solution (with_max scenario 0 2) (PyList [0; 1; 2; 3])
      = Ok (PyInt s')
    ∧ s' ≤ s.
Proof.
  assert (1 ≤ 2) as Hle by lia.
  destruct (raising_limit_never_increases scenario 0 1 2
              (PyList [0; 1; 2; 3]) eq_refl Hle) as [_ Hscored].
  apply Hscored.
  - exact well_formed_scenario.
  - reflexivity.
  - apply sorted_eq_range. vm_compute. reflexivity.
Defined.

Example raised_limit_scenario :
  evaluate_solution (with_max scenario 0 2) (PyList [0; 1; 2; 3])
  = Ok (PyInt 0).
Proof. vm_compute. reflexivity. Qed.

(** * The loader *)

Section reading.
Context {A B : Type}.

Lemma reads_ret (a : A) : reads 0 (mret a).
Proof. intros it. split; [lia|]. intros _. by exists a. Qed.

Lemma reads_next : reads 1 next.
Proof.
  intros [|x it]; cbn; split; try lia; [done|].
  intros _. by exists x.
Qed.

Lemma reads_bind N K (m : iter A) (f : A → iter B) :
  reads N m → (∀ a, reads K (f a)) → reads (N + K) (m ≫= f).
Proof.
  intros Hm Hf it. unfold mbind, iter_bind.
  destruct (Hm it) as [Hshort Hlong].
  destruct (decide (length it < N)%nat) as [Hlt|Hge].
  - rewrite Hshort by done. split; [done|lia].
  - destruct Hlong as [a ->]; [lia|].
    destruct (Hf a (drop N it)) as [Hshort' Hlong'].
    rewrite length_drop in *. split.
    + intros Hlt. apply Hshort'. lia.
    + intros Hge'. rewrite drop_drop in Hlong'. apply Hlong'. lia.
Qed.

Lemma reads_eq N K (m : iter A) : N = K → reads N m → reads K m.
Proof. by intros ->. Qed.
End reading.

Lemma reads_mapM {A B : Type} K (f : A → iter B) (js : list A) :
  (∀ j, reads K (f j)) → reads (length js * K) (mapM f js).
Proof.
  intros Hf. induction js as [|j js IH]; cbn [mapM length].
  - apply reads_ret.
  - apply (reads_eq (K + (length js * K + 0))); [lia|].
    apply reads_bind; [done|]. intros x.
    apply reads_bind; [done|]. intros k. apply reads_ret.
Qed.

Lemma length_range n : length (range n) = Z.to_nat n.
Proof. unfold range. by rewrite length_fmap, length_seq. Qed.

Lemma reads_next_list n : reads (Z.to_nat n) (next_list n).
Proof.
  unfold next_list. apply (reads_eq (length (range n) * 1)).
  - rewrite length_range. lia.
  - apply reads_mapM. intros _. apply reads_next.
Qed.

Lemma reads_next_flags n : reads (Z.to_nat n) (next_flags n).
Proof.
  unfold next_flags. apply (reads_eq (length (range n) * 1)).
  - rewrite length_range. lia.
  - apply reads_mapM. intros _.
    apply (reads_bind 1 0); [apply reads_next|]. intros x. apply reads_ret.
Qed.

Lemma reads_load_class nb_opts c st :
  reads (2 + Z.to_nat nb_opts) (load_class nb_opts c st).
Proof.
  unfold load_class.
  apply (reads_bind 1 (1 + Z.to_nat nb_opts)); [apply reads_next|]. intros _.
  apply (reads_bind 1); [apply reads_next|]. intros count.
  apply (reads_eq (Z.to_nat nb_opts + 0)); [lia|].
  apply reads_bind; [apply reads_next_flags|]. intros k. apply reads_ret.
Qed.

Lemma reads_for_each_it {A S : Type} K (xs : list A)
    (body : A → S → iter S) s :
  (∀ x t, reads K (body x t)) →
  reads (length xs * K) (for_each_it xs body s).
Proof.
  intros Hbody. revert s. induction xs as [|x xs IH]; intros s; cbn.
  - apply reads_ret.
  - apply reads_bind; [done|]. intros t. apply IH.
Qed.

Lemma load_from_iter_fields positions nb_opts nb_classes body :
  load_from_iter (positions :: nb_opts :: nb_classes :: body)
  = (read_fields nb_opts nb_classes ≫= check_positions positions nb_opts) body.
Proof.
  unfold load_from_iter, read_fields, check_positions, mbind, iter_bind, next.
  destruct (next_list nb_opts body) as [[maxima it1]|]; [|done].
  destruct (next_list nb_opts it1) as [[sizes it2]|]; [|done].
  destruct (for_each_it _ _ _ it2) as [[st it3]|]; done.
Qed.

Lemma reads_read_fields nb_opts nb_classes :
  reads (Z.to_nat nb_opts + Z.to_nat nb_opts
         + Z.to_nat nb_classes * (2 + Z.to_nat nb_opts))
        (read_fields nb_opts nb_classes).
Proof.
  unfold read_fields.
  apply (reads_eq (Z.to_nat nb_opts + (Z.to_nat nb_opts
         + (Z.to_nat nb_classes * (2 + Z.to_nat nb_opts) + 0)))); [lia|].
  apply reads_bind; [apply reads_next_list|]. intros maxima.
  apply reads_bind; [apply reads_next_list|]. intros sizes.
  apply reads_bind; [|intros st; apply reads_ret].
  rewrite <- (length_range nb_classes).
  apply reads_for_each_it. intros c st. apply reads_load_class.
Qed.

(** A stream shorter than the count the header announces exhausts the
    iterator. *)
Lemma load_from_iter_short positions nb_opts nb_classes body :
  0 ≤ nb_opts → 0 ≤ nb_classes →
  len (positions :: nb_opts :: nb_classes :: body)
    < expected_tokens nb_opts nb_classes →
  load_from_iter (positions :: nb_opts :: nb_classes :: body)
  = Raise StopIteration.
Proof.
  unfold len, expected_tokens. cbn [length]. intros Hopts Hclasses Hshort.
  rewrite load_from_iter_fields. unfold mbind, iter_bind.
  destruct (reads_read_fields nb_opts nb_classes body) as [Hread _].
  rewrite Hread; [done|nia].
Qed.

(** On a stream that is long enough the loader leaves everything after the
    announced count unread, and only the check of line 74 can fail. *)
Lemma load_from_iter_long positions nb_opts nb_classes body :
  0 ≤ nb_opts → 0 ≤ nb_classes →
  expected_tokens nb_opts nb_classes
    ≤ len (positions :: nb_opts :: nb_classes :: body) →
  load_from_iter (positions :: nb_opts :: nb_classes :: body)
  = Raise ValueError
  ∨ ∃ self,
      load_from_iter (positions :: nb_opts :: nb_classes :: body)
      = Ok (self, drop (Z.to_nat (expected_tokens nb_opts nb_classes))
                    (positions :: nb_opts :: nb_classes :: body)).
Proof.
  unfold len, expected_tokens. cbn [length]. intros Hopts Hclasses Hlong.
  rewrite load_from_iter_fields. unfold mbind, iter_bind.
  destruct (reads_read_fields nb_opts nb_classes body) as [_ Hread].
  destruct Hread as [[[maxima sizes] st] ->]; [nia|].
  unfold check_positions.
  destruct (bool_decide _); cbn; [right|by left].
  eexists. unfold mret, iter_ret. do 2 f_equal.
  replace (Z.to_nat (3 + 2 * nb_opts + nb_classes * (2 + nb_opts)))
    with (3 + (Z.to_nat nb_opts + Z.to_nat nb_opts
               + Z.to_nat nb_classes * (2 + Z.to_nat nb_opts)))%nat by nia.
  done.
Qed.

(** ** Loading the tokens of a description *)

Lemma mapM_next_app {A : Type} (js : list A) (xs rest : list Z) :
  length js = length xs →
  mapM (M := iter) (λ _, next) js (xs ++ rest) = Ok (xs, rest).
Proof.
  revert xs. induction js as [|j js IH]; intros [|x xs] Hlen;
    try discriminate; [done|].
  cbn. unfold mbind, iter_bind. cbn. rewrite IH by (cbn in Hlen; lia). done.
Qed.

Lemma next_flags_app (xs rest : list Z) :
  next_flags (len xs) (xs ++ rest)
  = Ok ((λ x, bool_decide (x = 1)) <$> xs, rest).
Proof.
  unfold next_flags.
  assert (length (range (len xs)) = length xs) as Hlen
    by (rewrite length_range; unfold len; lia).
  revert Hlen. generalize (range (len xs)) as js. intros js. revert xs.
  induction js as [|j js IH]; intros [|x xs] Hlen; try discriminate; [done|].
  cbn. unfold mbind, iter_bind. cbn. rewrite IH by (cbn in Hlen; lia). done.
Qed.

Lemma next_list_app (xs rest : list Z) :
  next_list (len xs) (xs ++ rest) = Ok (xs, rest).
Proof.
  unfold next_list. apply mapM_next_app.
  rewrite length_range. unfold len. lia.
Qed.

Lemma load_class_app (nb_opts : nat) c st cd rest :
  length (indicators cd) = nb_opts →
  load_class (Z.of_nat nb_opts) c st (class_tokens cd ++ rest)
  = Ok ({| nb_cars := nb_cars st ++ [car_count cd];
           ld_options := ld_options st ++ [class_row cd];
           ld_initial_sequence :=
             ld_initial_sequence st ++ replicate (Z.to_nat (car_count cd)) c |},
        rest).
Proof.
  intros <-. unfold load_class, class_tokens, mbind, iter_bind. cbn.
  change (Z.of_nat (length (indicators cd))) with (len (indicators cd)).
  rewrite next_flags_app. done.
Qed.

Lemma load_classes_app (nb_opts : nat) classes (a : nat) st rest :
  (∀ cd, cd ∈ classes → length (indicators cd) = nb_opts) →
  for_each_it (Z.of_nat <$> seq a (length classes))
    (load_class (Z.of_nat nb_opts)) st
    (concat (class_tokens <$> classes) ++ rest)
  = Ok ({| nb_cars := nb_cars st ++ (car_count <$> classes);
           ld_options := ld_options st ++ (class_row <$> classes);
           ld_initial_sequence :=
             ld_initial_sequence st ++ expand (Z.of_nat a) classes |},
        rest).
Proof.
  revert a st. induction classes as [|cd classes IH]; intros a st Hind.
  - cbn. rewrite !app_nil_r. by destruct st.
  - cbn [length seq fmap list_fmap concat for_each_it expand].
    unfold mbind at 1, iter_bind at 1. rewrite <- app_assoc.
    rewrite load_class_app by (apply Hind; left).
    rewrite IH by (intros cd' Hcd'; apply Hind; by right).
    cbn. rewrite <- !app_assoc. cbn.
    replace (Z.of_nat (S a)) with (Z.of_nat a + 1) by lia. done.
Qed.

Lemma load_from_iter_tokens d rest :
  laid_out d →
  load_from_iter (tokens d ++ rest)
  = if bool_decide (len (expand 0 (d_classes d)) = d_positions d)
    then Ok (instance_of d, rest)
    else Raise ValueError.
Proof.
  intros [Hwindow Hind]. unfold tokens. rewrite <- !app_assoc. cbn [app].
  rewrite load_from_iter_fields.
  unfold read_fields, mbind, iter_bind.
  rewrite next_list_app.
  replace (len (d_max d)) with (len (d_window d)) at 1
    by (unfold len; by rewrite Hwindow).
  rewrite next_list_app.
  unfold range, len at 1. rewrite Nat2Z.id.
  rewrite (load_classes_app (length (d_max d))) by done.
  cbn. unfold instance_of, class_row.
  destruct (bool_decide _); done.
Qed.

Lemma length_class_tokens nb_opts classes :
  (∀ cd, cd ∈ classes → length (indicators cd) = nb_opts) →
  length (concat (class_tokens <$> classes))
  = (length classes * (2 + nb_opts))%nat.
Proof.
  induction classes as [|cd classes IH]; intros Hind; cbn; [done|].
  rewrite length_app, IH by (intros cd' Hcd'; apply Hind; by right).
  rewrite (Hind cd) by left. lia.
Qed.

Lemma len_tokens d :
  laid_out d →
  len (tokens d) = expected_tokens (len (d_max d)) (len (d_classes d)).
Proof.
  intros [Hwindow Hind]. unfold len, tokens, expected_tokens.
  cbn [length app]. rewrite !length_app, Hwindow.
  rewrite (length_class_tokens (length (d_max d))) by done. lia.
Qed.

(** Every stream that stops inside a description exhausts the iterator. *)
Lemma load_from_iter_truncated d data missing :
  laid_out d →
  data ++ missing = tokens d →
  missing ≠ [] →
  load_from_iter data = Raise StopIteration.
Proof.
  intros Hlayout Hsplit Hmissing.
  assert (len data < len (tokens d)) as Hshort.
  { rewrite <- Hsplit, len_app. destruct missing; [done|].
    unfold len. cbn. lia. }
  rewrite len_tokens in Hshort by done.
  destruct data as [|positions [|nb_opts [|nb_classes body]]]; try done.
  unfold tokens in Hsplit. cbn in Hsplit.
  injection Hsplit as _ -> -> _.
  apply load_from_iter_short; [apply len_nonneg..|done].
Qed.

(** * Claims on the loader *)

Lemma well_formed_two_classes : well_formed_description two_classes_description.
Proof.
  split; [split|]; cbn; try done; finite_members.
Qed.

(** C7, as stated, fails on trailing tokens: two tokens after the eleven the
    format prescribes are accepted and the instance is built. *)
Lemma trailing_tokens_accepted :
  expected_tokens 1 2 = 11
  ∧ len (two_classes ++ [7; 7]) = 13
  ∧ _load_instance (two_classes ++ [7; 7]) = Ok scenario.
Proof. vm_compute. auto. Qed.

(** C7, amended.  The loader reads the tokens in the order position count,
    option count, class count, the maxima, the window sizes and, class after
    class, an index that is dropped, a number of cars and the indicators:
    [3 + 2 * nb_options + nb_classes * (2 + nb_options)] tokens.  A stream
    that stops before the last of them raises [StopIteration]; whatever
    follows them is left unread and changes nothing. *)
Theorem load_instance_layout d rest :
  laid_out d →
  len (tokens d) = expected_tokens (len (d_max d)) (len (d_classes d))
  ∧ load_from_iter (tokens d ++ rest)
    = (if bool_decide (len (expand 0 (d_classes d)) = d_positions d)
       then Ok (instance_of d, rest)
       else Raise ValueError)
  ∧ _load_instance (tokens d ++ rest) = _load_instance (tokens d)
  ∧ (∀ data missing,
       data ++ missing = tokens d → missing ≠ [] →
       _load_instance data = Raise StopIteration).
Proof.
  intros Hlayout. split_and!.
  - by apply len_tokens.
  - by apply load_from_iter_tokens.
  - unfold _load_instance.
    rewrite <- (app_nil_r (tokens d)) at 2.
    rewrite !load_from_iter_tokens by done.
    by destruct (bool_decide _).
  - intros data missing Hsplit Hmissing. unfold _load_instance.
    by rewrite (load_from_iter_truncated d data missing).
Qed.

Lemma load_instance_layout_witness :
  len two_classes = 11
  ∧ load_from_iter (two_classes ++ [7; 7]) = Ok (scenario, [7; 7])
  ∧ _load_instance (two_classes ++ [7; 7]) = _load_instance two_classes
  ∧ (∀ data missing,
       data ++ missing = two_classes → missing ≠ [] →
       _load_instance data = Raise StopIteration).
Proof.
  apply (load_instance_layout two_classes_description [7; 7]).
  exact (wfd_layout _ well_formed_two_classes).
Defined.

Example load_truncated :
  _load_instance [4; 1; 2;  1;  2;  0; 2; 1;  1; 2] = Raise StopIteration.
Proof. vm_compute. reflexivity. Qed.

(** ** The number of cars *)

Lemma len_replicate {A : Type} (n : Z) (x : A) :
  0 ≤ n → len (replicate (Z.to_nat n) x) = n.
Proof. intros Hn. unfold len. rewrite length_replicate. lia. Qed.

Lemma len_expand c0 classes :
  (∀ cd, cd ∈ classes → 0 ≤ car_count cd) →
  len (expand c0 classes) = Reference.Zsum car_count classes.
Proof.
  unfold Reference.Zsum. revert c0.
  induction classes as [|cd classes IH]; intros c0 Hcounts; cbn; [done|].
  rewrite len_app, len_replicate by (apply Hcounts; left).
  rewrite IH; [done|]. intros cd' Hcd'. apply Hcounts. by right.
Qed.

(** C8, as stated, fails on a number of cars below zero, which the loop of
    line 72 reads as no car: with the numbers 2 and -1 and two positions the
    sum is 1 and the instance is built; with 3 and -1 and two positions the
    sum is 2 and [ValueError] is raised. *)
Lemma negative_counts_break_the_sum :
  (total_cars negative_count_description
   ≠ d_positions negative_count_description
   ∧ _load_instance (tokens negative_count_description)
     = Ok (instance_of negative_count_description))
  ∧ (total_cars surplus_description = d_positions surplus_description
     ∧ _load_instance (tokens surplus_description) = Raise ValueError).
Proof. split; (split; [vm_compute; congruence|vm_compute; reflexivity]). Qed.

(** C8, amended.  On a description that follows the layout and gives no
    class a number of cars below zero, whatever follows it, the loader
    raises [ValueError] when the numbers of cars of the classes do not add up
    to the position count, and builds the instance when they do. *)
Theorem car_count_mismatch d rest :
  well_formed_description d →
  (total_cars d ≠ d_positions d →
   _load_instance (tokens d ++ rest) = Raise ValueError)
  ∧ (total_cars d = d_positions d →
     _load_instance (tokens d ++ rest) = Ok (instance_of d)).
Proof.
  intros [Hlayout Hcounts]. unfold _load_instance, total_cars.
  rewrite load_from_iter_tokens, len_expand by done.
  split; intros Hsum.
  - by rewrite bool_decide_eq_false_2.
  - by rewrite bool_decide_eq_true_2.
Qed.

Lemma well_formed_one_car_missing :
  well_formed_description one_car_missing_description.
Proof.
  split; [split|]; cbn; try done; finite_members.
Qed.

Lemma car_count_mismatch_witness :
  _load_instance (tokens one_car_missing_description ++ [7])
  = Raise ValueError
  ∧ _load_instance (two_classes ++ []) = Ok scenario.
Proof.
  split.
  - apply (car_count_mismatch one_car_missing_description [7]).
    + exact well_formed_one_car_missing.
    + vm_compute. congruence.
  - apply (car_count_mismatch two_classes_description []).
    + exact well_formed_two_classes.
    + reflexivity.
Defined.

Example load_one_car_missing :
  _load_instance [5; 1; 2;  1;  2;  0; 2; 1;  1; 2; 0] = Raise ValueError.
Proof. vm_compute. reflexivity. Qed.

(** ** Occurrences of a class in the initial sequence *)

Lemma occurrences_app c l1 l2 :
  occurrences c (l1 ++ l2) = occurrences c l1 + occurrences c l2.
Proof. unfold occurrences. by rewrite filter_app, len_app. Qed.

Lemma occurrences_absent c l : c ∉ l → occurrences c l = 0.
Proof.
  unfold occurrences, len. induction l as [|x l IH]; intros Hc; [done|].
  apply not_elem_of_cons in Hc as [Hne Hc].
  rewrite filter_cons_False by done. by apply IH.
Qed.

Lemma occurrences_replicate c (n : nat) :
  occurrences c (replicate n c) = Z.of_nat n.
Proof.
  unfold occurrences, len. induction n as [|n IH]; [done|].
  cbn [replicate]. rewrite filter_cons_True by done. cbn [length]. lia.
Qed.

Lemma expand_bounds c0 classes x :
  x ∈ expand c0 classes → c0 ≤ x < c0 + len classes.
Proof.
  unfold len. revert c0. induction classes as [|cd classes IH]; intros c0; cbn.
  - by intros ?%elem_of_nil.
  - intros [Hx|Hx]%elem_of_app.
    + apply elem_of_replicate in Hx as [-> _]. lia.
    + apply IH in Hx. lia.
Qed.

Lemma occurrences_expand classes c0 (c : nat) cd :
  (∀ cd', cd' ∈ classes → 0 ≤ car_count cd') →
  classes !! c = Some cd →
  occurrences (c0 + Z.of_nat c) (expand c0 classes) = car_count cd.
Proof.
  revert c0 c. induction classes as [|cd0 classes IH]; intros c0 c Hcounts;
    [done|].
  cbn [expand]. rewrite occurrences_app. destruct c as [|c].
  - intros [= ->]. change (Z.of_nat 0) with 0.
    rewrite Z.add_0_r, occurrences_replicate, occurrences_absent.
    + assert (0 ≤ car_count cd) by (apply Hcounts; left). lia.
    + intros Hin%expand_bounds. lia.
  - intros Hcd. change (classes !! c = Some cd) in Hcd.
    rewrite occurrences_absent.
    + replace (c0 + Z.of_nat (S c)) with (c0 + 1 + Z.of_nat c) by lia.
      rewrite (IH (c0 + 1) c); [lia| |done].
      intros cd' Hcd'. apply Hcounts. by right.
    + intros [Heq _]%elem_of_replicate. lia.
Qed.

(** C9. When a well-formed description is loaded, every class occurs in
    [initial_sequence] as many times as its number of cars says. *)
Theorem class_counts_reproduced d rest self :
  well_formed_description d →
  _load_instance (tokens d ++ rest) = Ok self →
  ∀ (c : nat) cd,
    d_classes d !! c = Some cd →
    occurrences (Z.of_nat c) (initial_sequence self) = car_count cd.
Proof.
  intros [Hlayout Hcounts]. unfold _load_instance.
  rewrite load_from_iter_tokens by done.
  destruct (bool_decide _); [|done]. intros [= <-] c cd Hcd. cbn.
  rewrite <- (Z.add_0_l (Z.of_nat c)). by apply occurrences_expand.
Qed.

Lemma class_counts_reproduced_witness :
  occurrences 1 (initial_sequence scenario) = 2.
Proof.
  apply (class_counts_reproduced two_classes_description [] scenario
           well_formed_two_classes eq_refl 1%nat
           {| class_index := 1; car_count := 2; indicators := [0] |}).
  reflexivity.
Defined.

(** * Further properties of the evaluator *)

Lemma evaluate_penalty_iff self solution :
  evaluate_solution self solution = Ok PENALTY ↔
  passes_validation self solution = false.
Proof.
  destruct (passes_validation self solution) eqn:Hpass.
  - rewrite evaluate_accepted by done. split; [|done].
    intros Hscore. apply score_is_int in Hscore as [v Hv]. discriminate.
  - rewrite evaluate_rejected by done. done.
Qed.

Lemma NoDup_range n : NoDup (range n).
Proof.
  unfold range. apply NoDup_fmap_2; [|apply NoDup_seq].
  intros x y Hxy. lia.
Qed.

(** A list is a permutation of [range(n)] when it has [n] items, all
    different and all in [0 .. n - 1]. *)
Lemma permutation_range_iff l n :
  0 ≤ n →
  l ≡ₚ range n ↔
  len l = n ∧ NoDup l ∧ ∀ i, i ∈ l → 0 ≤ i < n.
Proof.
  intros Hn. split.
  - intros Hperm. split_and!.
    + by apply permutation_range_len.
    + rewrite Hperm. apply NoDup_range.
    + intros i Hi. by eapply permutation_range_bounds.
  - intros (Hlen & Hdup & Hbounds).
    apply submseteq_length_Permutation.
    + apply NoDup_submseteq; [done|]. intros i Hi.
      by apply elem_of_range, Hbounds.
    + rewrite length_range. unfold len in Hlen. lia.
Qed.

(** X1. The penalty is returned exactly when the candidate is not a list or
    tuple, or has not [nb_positions] items, or repeats an item, or holds an
    item outside [0 .. nb_positions - 1]. *)
Theorem penalty_characterisation self solution :
  evaluate_solution self solution = Ok PENALTY ↔
  isinstance_list_tuple solution = false
  ∨ len (items_of solution) ≠ nb_positions self
  ∨ ¬ NoDup (items_of solution)
  ∨ ∃ i, i ∈ items_of solution ∧ ¬ (0 ≤ i < nb_positions self).
Proof.
  rewrite evaluate_penalty_iff, <- not_true_iff_false, passes_validation_spec.
  set (l := items_of solution). set (n := nb_positions self).
  destruct (decide (len l = n)) as [Hlen|Hlen]; [|tauto].
  assert (0 ≤ n) as Hn by (rewrite <- Hlen; apply len_nonneg).
  rewrite sorted_eq_range, (permutation_range_iff l n Hn).
  destruct (decide (NoDup l)) as [Hdup|Hdup]; [|tauto].
  destruct (decide (Forall (λ i, 0 ≤ i < n) l)) as [Hall|Hsome].
  - rewrite Forall_forall in Hall. split.
    + destruct (isinstance_list_tuple solution); [|by left]. tauto.
    + intros [Hinst|[Hne|[Hrep|(i & Hi & Hout)]]] (Hinst' & _ & _);
        [congruence|done|done|]. by apply Hout, Hall.
  - split.
    + intros _. do 3 right.
      apply not_Forall_Exists in Hsome; [|apply _].
      by apply Exists_exists in Hsome.
    + intros _ (_ & _ & _ & _ & Hall). by apply Hsome, Forall_forall.
Qed.

(** ** The running total *)

Lemma for_each_nondecreasing {A : Type} (xs : list A)
    (body : A → Z → result Z) s r :
  (∀ x t u, body x t = Ok u → t ≤ u) →
  for_each xs body s = Ok r → s ≤ r.
Proof.
  intros Hbody. revert s. induction xs as [|x xs IH]; intros s; cbn.
  - intros [= <-]. lia.
  - destruct (body x s) as [u|] eqn:Hu; cbn; [|done]. intros Hrest.
    apply Hbody in Hu. apply IH in Hrest. lia.
Qed.

Lemma window_pass_nondecreasing self sequence o w limit j t u :
  window_pass self sequence o w limit j t = Ok u → t ≤ u.
Proof.
  unfold window_pass.
  destruct (window_count self sequence o j w) as [count|]; cbn; [|done].
  intros [= <-]. destruct (limit <? count) eqn:Hcmp; lia.
Qed.

Lemma option_pass_nondecreasing self sequence o t u :
  option_pass self sequence o t = Ok u → t ≤ u.
Proof.
  unfold option_pass.
  destruct (getitem (window_size self) o) as [w|]; cbn; [|done].
  destruct (getitem (max_cars_per_window self) o) as [limit|]; cbn; [|done].
  apply for_each_nondecreasing. intros j s v.
  apply window_pass_nondecreasing.
Qed.

Lemma evaluate_int_nonneg self solution v :
  evaluate_solution self solution = Ok (PyInt v) → 0 ≤ v.
Proof.
  destruct (passes_validation self solution) eqn:Hpass.
  - rewrite evaluate_accepted by done. unfold score, scan.
    destruct (reconstruct self _) as [sequence|]; cbn; [|done].
    destruct (for_each _ _ _) as [total|] eqn:Htotal; cbn; [|done].
    intros [= <-]. eapply for_each_nondecreasing, Htotal.
    intros o t u. apply option_pass_nondecreasing.
  - by rewrite evaluate_rejected.
Qed.

(** X2. Whatever the instance holds, also one that breaks the invariants, a
    score the evaluator returns is never negative: no pass lowers the running
    total. *)
Theorem score_never_negative self solution v :
  evaluate_solution self solution = Ok (PyInt v) → 0 ≤ v.
Proof. apply evaluate_int_nonneg. Qed.

Lemma score_never_negative_witness :
  evaluate_solution negative_limit (PyList [0]) = Ok (PyInt 1000000000)
  ∧ 0 ≤ 1000000000.
Proof.
  assert (evaluate_solution negative_limit (PyList [0])
          = Ok (PyInt 1000000000)) as Hscore by (vm_compute; reflexivity).
  split; [exact Hscore|].
  exact (score_never_negative negative_limit (PyList [0]) 1000000000 Hscore).
Defined.

(** ** Windows without a position *)

Lemma Zsum_constant {A : Type} (c : Z) (xs : list A) :
  Reference.Zsum (λ _, c) xs = len xs * c.
Proof.
  unfold Reference.Zsum, len. induction xs as [|x xs IH]; cbn [foldr length].
  - lia.
  - rewrite IH. lia.
Qed.

Lemma len_range_max n : len (range n) = Z.max 0 n.
Proof. unfold len. rewrite length_range. lia. Qed.

Lemma window_count_empty self sequence o j w :
  w ≤ 0 → window_count self sequence o j w = Ok 0.
Proof. intros Hw. unfold window_count. by rewrite range_nonpos. Qed.

(** X3. A window size of zero or less is no error: its windows hold no car,
    there are [nb_positions - w + 1] of them, and each adds the amount by
    which the limit is below zero.  With a limit of zero or more the pass on
    the option leaves the running total as it is. *)
Theorem empty_window_pass self o w limit sequence total :
  getitem (window_size self) o = Ok w →
  getitem (max_cars_per_window self) o = Ok limit →
  w ≤ 0 →
  option_pass self sequence o total
  = Ok (total + Z.max 0 (nb_positions self - w + 1) * Z.max 0 (- limit))
  ∧ (0 ≤ limit → option_pass self sequence o total = Ok total).
Proof.
  intros Hw Hlimit Hempty.
  assert (option_pass self sequence o total
          = Ok (total + Z.max 0 (nb_positions self - w + 1)
                        * Z.max 0 (- limit))) as Hpass.
  { unfold option_pass. rewrite Hw, Hlimit. cbn.
    rewrite <- len_range_max, <- Zsum_constant.
    apply for_each_sum. intros j t _. unfold window_pass.
    rewrite window_count_empty by done. cbn.
    destruct (limit <? 0) eqn:Hcmp; f_equal; lia. }
  split; [done|]. intros Hnonneg. rewrite Hpass. f_equal.
  replace (Z.max 0 (- limit)) with 0 by lia. lia.
Qed.

Lemma empty_window_pass_witness :
  option_pass empty_window [0; 0] 0 5
  = Ok (5 + Z.max 0 (2 - 0 + 1) * Z.max 0 (- -3))
  ∧ (0 ≤ -3 → option_pass empty_window [0; 0] 0 5 = Ok 5).
Proof.
  apply (empty_window_pass empty_window 0 0 (-3) [0; 0] 5).
  - reflexivity.
  - reflexivity.
  - lia.
Defined.

(** ** An initial sequence shorter than the position count *)

Lemma getitem_raises_IndexError {A : Type} (l : list A) i :
  getitem l i = Raise IndexError ∨ ∃ x, getitem l i = Ok x.
Proof.
  unfold getitem. destruct (_ <? 0); [by left|].
  destruct (_ !! _) as [x|]; [right; by exists x|by left].
Qed.

Lemma getitem_beyond {A : Type} (l : list A) i :
  len l ≤ i → getitem l i = Raise IndexError.
Proof.
  unfold len, getitem. intros Hi.
  destruct (i <? 0) eqn:Hneg; [lia|]. rewrite Hneg.
  rewrite (lookup_ge_None_2 l (Z.to_nat i)) by lia. done.
Qed.

Lemma comprehension_raises {A B : Type} (f : A → result B) (xs : list A) e :
  (∀ x, x ∈ xs → f x = Raise e ∨ ∃ y, f x = Ok y) →
  (∃ x, x ∈ xs ∧ f x = Raise e) →
  comprehension f xs = Raise e.
Proof.
  unfold comprehension. induction xs as [|x xs IH]; intros Honly (z & Hz & Hraise).
  - by apply elem_of_nil in Hz.
  - cbn. destruct (Honly x) as [->|[y Hy]]; [by left|done|].
    rewrite Hy. cbn. rewrite IH; [done| |].
    + intros x' Hx'. apply Honly. by right.
    + apply elem_of_cons in Hz as [->|Hz]; [congruence|eauto].
Qed.

(** X4. The constructor checks nothing, so [initial_sequence] may be shorter
    than [nb_positions]: every list or tuple that passes the validation then
    makes the evaluator raise [IndexError] at the reconstruction.  When it is
    at least that long the reconstruction never raises. *)
Theorem short_initial_sequence self solution :
  isinstance_list_tuple solution = true →
  valid_permutation self (items_of solution) →
  (len (initial_sequence self) < nb_positions self →
   evaluate_solution self solution = Raise IndexError)
  ∧ (nb_positions self ≤ len (initial_sequence self) →
     reconstruct self (items_of solution)
     = Ok (Reference.sequence_of self (items_of solution))).
Proof.
  intros Hinst Hperm. split.
  - intros Hshort.
    pose proof (len_nonneg (initial_sequence self)) as Hlen.
    rewrite evaluate_accepted by (apply valid_permutation_passes; [lia|done..]).
    unfold score, reconstruct.
    rewrite (comprehension_raises _ _ IndexError); [done| |].
    + intros i _. apply getitem_raises_IndexError.
    + exists (nb_positions self - 1). split.
      * unfold valid_permutation in Hperm. rewrite Hperm.
        apply elem_of_range. lia.
      * apply getitem_beyond. lia.
  - intros Hlong. apply reconstruct_in_range. intros i Hi.
    apply (permutation_range_bounds _ _ _ Hperm) in Hi. lia.
Qed.

Lemma short_initial_sequence_witness :
  evaluate_solution short_plan (PyList [1; 0; 2]) = Raise IndexError.
Proof.
  refine (proj1 (short_initial_sequence short_plan (PyList [1; 0; 2])
                   eq_refl _) _).
  - apply sorted_eq_range. vm_compute. reflexivity.
  - vm_compute. reflexivity.
Defined.

(** ** Feasible sequences and the largest score *)

Lemma Zsum_zero_iff {A : Type} (f : A → Z) (xs : list A) :
  (∀ x, x ∈ xs → 0 ≤ f x) →
  Reference.Zsum f xs = 0 ↔ ∀ x, x ∈ xs → f x = 0.
Proof.
  unfold Reference.Zsum. induction xs as [|x xs IH]; intros Hf; cbn [foldr].
  - split; [|done]. intros _ x Hx. by apply elem_of_nil in Hx.
  - assert (0 ≤ f x) by (apply Hf; left).
    assert (0 ≤ foldr (λ y acc, f y + acc) 0 xs)
      by (apply (Zsum_nonneg f xs); intros y Hy; apply Hf; by right).
    rewrite <- Forall_forall, Forall_cons, Forall_forall, <- IH
      by (intros y Hy; apply Hf; by right).
    lia.
Qed.

Lemma Zsum_le {A : Type} (f g : A → Z) (xs : list A) :
  (∀ x, x ∈ xs → f x ≤ g x) → Reference.Zsum f xs ≤ Reference.Zsum g xs.
Proof.
  unfold Reference.Zsum. induction xs as [|x xs IH]; intros Hfg; cbn [foldr].
  - lia.
  - assert (f x ≤ g x) by (apply Hfg; left).
    assert (foldr (λ y acc, f y + acc) 0 xs ≤ foldr (λ y acc, g y + acc) 0 xs)
      by (apply IH; intros y Hy; apply Hfg; by right).
    lia.
Qed.

Lemma excess_nonneg self sequence o j : 0 ≤ Reference.excess self sequence o j.
Proof. unfold Reference.excess. lia. Qed.

Lemma option_violations_nonneg self sequence o :
  0 ≤ Reference.option_violations self sequence o.
Proof. apply Zsum_nonneg. intros j _. apply excess_nonneg. Qed.

(** No window holds more cars than it has positions. *)
Lemma count_bounds self sequence o j :
  0 ≤ Reference.count self sequence o j
    ≤ Z.max 0 (Reference.at_index 0 (window_size self) o).
Proof.
  unfold Reference.count. split; [apply len_nonneg|].
  set (w := Reference.at_index 0 (window_size self) o).
  rewrite interval_shift. unfold len.
  pose proof (length_filter
    (λ k, Reference.class_options self (Reference.at_index 0 sequence k) o = true)
    ((λ k, j + k) <$> range w)) as Hfilter.
  rewrite length_fmap, length_range in Hfilter. lia.
Qed.

Section accepted.
Variable self : CarSequencingProblem.
Variable solution : pyobj.
Hypothesis Hwf : well_formed self.
Hypothesis Hinst : isinstance_list_tuple solution = true.
Hypothesis Hperm : valid_permutation self (items_of solution).

Local Abbreviation sequence :=
  (Reference.sequence_of self (items_of solution)).
Local Abbreviation size o := (Reference.at_index 0 (window_size self) o).
Local Abbreviation limit o :=
  (Reference.at_index 0 (max_cars_per_window self) o).




Lemma objective_zero_iff :
  Reference.objective self (items_of solution) = 0 ↔
  ∀ o j, 0 ≤ o < nb_options self →
         0 ≤ j ≤ nb_positions self - size o →
         Reference.count self sequence o j ≤ limit o.
Proof.
  unfold Reference.objective, Reference.objective_on.
  rewrite Zsum_zero_iff by (intros o _; apply option_violations_nonneg).
  rewrite <- range_interval. split.
  - intros Hzero o j Ho Hj.
    specialize (Hzero o ltac:(by apply elem_of_range)).
    unfold Reference.option_violations in Hzero.
    rewrite Zsum_zero_iff in Hzero by (intros k _; apply excess_nonneg).
    specialize (Hzero j). unfold Reference.window_starts in Hzero.
    rewrite <- range_interval in Hzero.
    specialize (Hzero ltac:(apply elem_of_range; lia)).
    unfold Reference.excess in Hzero. lia.
  - intros Hfeasible o Ho%elem_of_range.
    unfold Reference.option_violations.
    apply Zsum_zero_iff; [intros k _; apply excess_nonneg|].
    intros j Hj. unfold Reference.window_starts in Hj.
    rewrite <- range_interval in Hj. apply elem_of_range in Hj.
    specialize (Hfeasible o j Ho ltac:(lia)).
    unfold Reference.excess. lia.
Qed.

Lemma objective_le_capacity :
  Reference.objective self (items_of solution)
  ≤ Reference.Zsum
      (λ o, Z.max 0 (nb_positions self - size o + 1)
            * Z.max 0 (Z.max 0 (size o) - limit o))
      (range (nb_options self)).
Proof.
  unfold Reference.objective, Reference.objective_on.
  rewrite <- range_interval. apply Zsum_le. intros o _.
  unfold Reference.option_violations, Reference.window_starts.
  rewrite <- range_interval, <- len_range_max, <- Zsum_constant.
  apply Zsum_le. intros j _. unfold Reference.excess.
  pose proof (count_bounds self sequence o j). lia.
Qed.
End accepted.



(** X6. On an instance that satisfies the invariants the score of a list or
    tuple holding a valid permutation is at most, summed over the options,
    the number of windows times the amount by which the window size exceeds
    the limit; it is zero when every limit is zero or more and at least the
    window size. *)
Theorem score_at_most_capacity self solution :
  well_formed self →
  isinstance_list_tuple solution = true →
  valid_permutation self (items_of solution) →
  (∃ v,
     evaluate_solution self solution = Ok (PyInt v)
     ∧ 0 ≤ v
       ≤ Reference.Zsum
           (λ o, Z.max 0 (nb_positions self
                          - Reference.at_index 0 (window_size self) o + 1)
                 * Z.max 0 (Z.max 0 (Reference.at_index 0 (window_size self) o)
                            - Reference.at_index 0 (max_cars_per_window self) o))
           (range (nb_options self)))
  ∧ ((∀ o w limit,
        getitem (window_size self) o = Ok w →
        getitem (max_cars_per_window self) o = Ok limit →
        0 ≤ limit ∧ w ≤ limit) →
     evaluate_solution self solution = Ok (PyInt 0)).
Proof.
  intros Hwf Hinst Hperm. rewrite evaluate_valid_permutation by done. split.
  - eexists. split; [done|]. split.
    + by apply objective_nonneg.
    + by apply objective_le_capacity.
  - intros Hroom. do 2 f_equal. apply objective_zero_iff; [done..|].
    intros o j Ho Hj.
    destruct (Hroom o (Reference.at_index 0 (window_size self) o)
                (Reference.at_index 0 (max_cars_per_window self) o))
      as [Hlimit Hsize].
    + apply getitem_at_index. by rewrite (wf_window _ Hwf).
    + apply getitem_at_index. by rewrite (wf_max _ Hwf).
    + pose proof (count_bounds self
        (Reference.sequence_of self (items_of solution)) o j). lia.
Qed.

Lemma score_at_most_capacity_witness :
  ∃ v, evaluate_solution scenario (PyList [0; 1; 2; 3]) = Ok (PyInt v)
       ∧ 0 ≤ v ≤ 3.
Proof.
  assert (valid_permutation scenario [0; 1; 2; 3]) as Hperm
    by (apply sorted_eq_range; vm_compute; reflexivity).
  destruct (score_at_most_capacity scenario (PyList [0; 1; 2; 3])
              well_formed_scenario eq_refl Hperm) as [Hbound _].
  exact Hbound.
Defined.

(** ** The sequence read backwards *)

Lemma Zsum_Permutation {A : Type} (f : A → Z) (xs ys : list A) :
  xs ≡ₚ ys → Reference.Zsum f xs = Reference.Zsum f ys.
Proof.
  unfold Reference.Zsum. induction 1; cbn [foldr]; lia.
Qed.

Lemma mirror_range_Permutation m : (λ k, m - 1 - k) <$> range m ≡ₚ range m.
Proof.
  destruct (decide (0 ≤ m)) as [Hm|Hm].
  - apply permutation_range_iff; [done|]. split_and!.
    + unfold len. rewrite length_fmap, length_range. lia.
    + apply NoDup_fmap_2; [|apply NoDup_range]. intros x y Hxy. lia.
    + intros i (k & -> & Hk%elem_of_range)%list_elem_of_fmap. lia.
  - rewrite range_nonpos by lia. done.
Qed.

(** A sum over [range(m)] may be taken from the other end. *)
Lemma Zsum_mirror (f : Z → Z) m :
  Reference.Zsum (λ k, f (m - 1 - k)) (range m) = Reference.Zsum f (range m).
Proof.
  rewrite <- (Zsum_fmap f (λ k, m - 1 - k)).
  apply Zsum_Permutation, mirror_range_Permutation.
Qed.

Lemma at_index_reverse {A : Type} (d : A) (l : list A) k :
  0 ≤ k < len l →
  Reference.at_index d (reverse l) k = Reference.at_index d l (len l - 1 - k).
Proof.
  unfold Reference.at_index, len. intros Hk.
  destruct (k <? 0) eqn:Hneg; [lia|].
  destruct (_ - 1 - k <? 0) eqn:Hneg'; [lia|].
  rewrite !nth_lookup, reverse_lookup by lia.
  do 2 f_equal. lia.
Qed.

Section backwards.
Variable self : CarSequencingProblem.
Variable sequence : list Z.
Hypothesis Hlen : len sequence = nb_positions self.

Local Abbreviation size o := (Reference.at_index 0 (window_size self) o).

Lemma count_as_sum s o j :
  Reference.count self s o j
  = Reference.Zsum
      (λ k, if Reference.class_options self (Reference.at_index 0 s (j + k)) o
            then 1 else 0)
      (range (size o)).
Proof.
  unfold Reference.count.
  rewrite len_filter_Zsum, interval_shift, Zsum_fmap.
  apply Zsum_ext. intros k _.
  destruct (Reference.class_options self _ o); case_decide; done.
Qed.

(** The window starting at [j] of the reversed sequence is the window
    starting at [nb_positions - w - j] of the sequence. *)
Lemma count_reverse o j :
  0 ≤ j ≤ nb_positions self - size o →
  Reference.count self (reverse sequence) o j
  = Reference.count self sequence o (nb_positions self - size o - j).
Proof.
  intros Hj. rewrite !count_as_sum.
  rewrite <- (Zsum_mirror _ (size o)). apply Zsum_ext.
  intros k Hk%elem_of_range.
  rewrite at_index_reverse by (rewrite Hlen; lia).
  rewrite Hlen.
  replace (nb_positions self - 1 - (j + (size o - 1 - k)))
    with (nb_positions self - size o - j + k) by lia.
  done.
Qed.

Lemma option_violations_reverse o :
  Reference.option_violations self (reverse sequence) o
  = Reference.option_violations self sequence o.
Proof.
  unfold Reference.option_violations, Reference.window_starts.
  rewrite <- range_interval.
  set (m := nb_positions self - size o + 1).
  rewrite <- (Zsum_mirror (Reference.excess self sequence o) m).
  apply Zsum_ext. intros j Hj%elem_of_range.
  unfold Reference.excess. subst m.
  rewrite count_reverse by lia. do 3 f_equal. lia.
Qed.

Lemma objective_on_reverse :
  Reference.objective_on self (reverse sequence)
  = Reference.objective_on self sequence.
Proof.
  unfold Reference.objective_on. apply Zsum_ext.
  intros o _. apply option_violations_reverse.
Qed.
End backwards.

Lemma items_of_reversed solution :
  items_of (reversed solution) = reverse (items_of solution).
Proof. by destruct solution. Qed.

Lemma isinstance_reversed solution :
  isinstance_list_tuple (reversed solution) = isinstance_list_tuple solution.
Proof. by destruct solution. Qed.

(** X7. On an instance that satisfies the invariants, a list or tuple holding
    a valid permutation and the same candidate read backwards get the same
    score. *)
Theorem reversed_candidate_same_score self solution :
  well_formed self →
  isinstance_list_tuple solution = true →
  valid_permutation self (items_of solution) →
  ∃ v, evaluate_solution self solution = Ok (PyInt v)
       ∧ evaluate_solution self (reversed solution) = Ok (PyInt v).
Proof.
  intros Hwf Hinst Hperm.
  assert (valid_permutation self (items_of (reversed solution))) as Hperm'.
  { unfold valid_permutation in *.
    by rewrite items_of_reversed, reverse_Permutation. }
  rewrite !evaluate_valid_permutation by (by rewrite ?isinstance_reversed).
  eexists. split; [done|]. do 2 f_equal.
  unfold Reference.objective, Reference.sequence_of.
  rewrite items_of_reversed, fmap_reverse.
  apply objective_on_reverse.
  unfold len. rewrite length_fmap.
  apply permutation_range_len; auto using well_formed_positions.
Qed.

Lemma reversed_candidate_same_score_witness :
  ∃ v, evaluate_solution scenario (PyList [0; 1; 2; 3]) = Ok (PyInt v)
       ∧ evaluate_solution scenario (PyList [3; 2; 1; 0]) = Ok (PyInt v).
Proof.
  apply (reversed_candidate_same_score scenario (PyList [0; 1; 2; 3])).
  - exact well_formed_scenario.
  - reflexivity.
  - apply sorted_eq_range. vm_compute. reflexivity.
Defined.

(** * The random candidate *)

Lemma evaluate_returns self solution :
  well_formed self → ∃ r, evaluate_solution self solution = Ok r.
Proof.
  intros Hwf. destruct (passes_validation self solution) eqn:Hpass.
  - apply passes_validation_spec in Hpass as (Hinst & Hlen & Hsorted).
    apply sorted_eq_range in Hsorted.
    rewrite evaluate_valid_permutation by done. eauto.
  - rewrite evaluate_rejected by done. eauto.
Qed.

(** X9. [random_solution] returns a list the evaluator accepts whenever
    [nb_positions] is zero or more, and scores on an instance that satisfies
    the invariants, whatever rearrangement the shuffle makes; with a negative
    [nb_positions] it returns the empty list, which gets the penalty. *)
Theorem random_solution_accepted {G : Type}
    (shuffle : G → list Z → list Z * G) self g :
  (∀ g l, (shuffle g l).1 ≡ₚ l) →
  (0 ≤ nb_positions self →
   passes_validation self (random_solution shuffle self g).1 = true)
  ∧ (well_formed self →
     ∃ v, 0 ≤ v
          ∧ evaluate_solution self (random_solution shuffle self g).1
            = Ok (PyInt v))
  ∧ (nb_positions self < 0 →
     (random_solution shuffle self g).1 = PyList []
     ∧ evaluate_solution self (random_solution shuffle self g).1
       = Ok PENALTY).
Proof.
  intros Hshuffle. unfold random_solution.
  pose proof (Hshuffle g (range (nb_positions self))) as Hperm.
  destruct (shuffle g (range (nb_positions self))) as [sol g'].
  cbn in Hperm. cbn [fst]. split_and!.
  - intros Hn. by apply valid_permutation_passes.
  - intros Hwf. exists (Reference.objective self sol). split.
    + apply objective_nonneg.
    + by apply evaluate_valid_permutation.
  - intros Hneg. rewrite range_nonpos in Hperm by lia.
    apply Permutation_nil_r in Hperm as ->. split; [done|].
    apply evaluate_rejected. unfold passes_validation. cbn.
    rewrite bool_decide_eq_false_2; [done|]. unfold len. cbn. lia.
Qed.

Lemma random_solution_accepted_witness :
  (random_solution shuffle_backwards scenario ()).1 = PyList [3; 2; 1; 0]
  ∧ ∃ v, 0 ≤ v
         ∧ evaluate_solution scenario
             (random_solution shuffle_backwards scenario ()).1
           = Ok (PyInt v).
Proof.
  split; [reflexivity|].
  refine (proj1 (proj2 (random_solution_accepted shuffle_backwards scenario ()
                          _)) well_formed_scenario).
  intros g l. apply reverse_Permutation.
Defined.

(** * What a successful load has read *)

Lemma mapM_next_Ok {A : Type} (js : list A) it xs it' :
  mapM (M := iter) (λ _, next) js it = Ok (xs, it') →
  it = xs ++ it' ∧ length xs = length js.
Proof.
  revert it xs. induction js as [|j js IH]; intros it xs; cbn.
  - by intros [= <- <-].
  - unfold mbind, iter_bind. destruct it as [|x it]; cbn; [done|].
    destruct (mapM (M := iter) _ js it) as [[ys it'']|] eqn:Hrest; cbn;
      [|done].
    intros [= <- <-]. apply IH in Hrest as [-> Hlen]. cbn. by rewrite Hlen.
Qed.

Lemma next_list_Ok n it xs it' :
  next_list n it = Ok (xs, it') →
  it = xs ++ it' ∧ length xs = Z.to_nat n.
Proof.
  unfold next_list. intros Hread%mapM_next_Ok. by rewrite length_range in Hread.
Qed.

Lemma next_flags_Ok n it flags it' :
  next_flags n it = Ok (flags, it') →
  ∃ xs, it = xs ++ it' ∧ length xs = Z.to_nat n
        ∧ flags = (λ x, bool_decide (x = 1)) <$> xs.
Proof.
  unfold next_flags. rewrite <- (length_range n).
  generalize (range n) as js. intros js. revert it flags.
  induction js as [|j js IH]; intros it flags; cbn.
  - intros [= <- <-]. by exists [].
  - unfold mbind, iter_bind. destruct it as [|x it]; cbn; [done|].
    destruct (mapM (M := iter) _ js it) as [[ys it'']|] eqn:Hrest; cbn;
      [|done].
    intros [= <- <-]. apply IH in Hrest as (xs & -> & Hlen & ->).
    exists (x :: xs). cbn. by rewrite Hlen.
Qed.

Lemma load_class_Ok nb_opts c st it st' it' :
  load_class nb_opts c st it = Ok (st', it') →
  ∃ cd, it = class_tokens cd ++ it'
        ∧ length (indicators cd) = Z.to_nat nb_opts
        ∧ st' = {| nb_cars := nb_cars st ++ [car_count cd];
                   ld_options := ld_options st ++ [class_row cd];
                   ld_initial_sequence :=
                     ld_initial_sequence st
                     ++ replicate (Z.to_nat (car_count cd)) c |}.
Proof.
  unfold load_class, mbind, iter_bind.
  destruct it as [|index [|count it]]; cbn; [done..|].
  destruct (next_flags nb_opts it) as [[flags it'']|] eqn:Hflags; cbn; [|done].
  intros [= <- <-]. apply next_flags_Ok in Hflags as (xs & -> & Hlen & ->).
  by exists {| class_index := index; car_count := count; indicators := xs |}.
Qed.

Lemma load_classes_Ok nb_opts (k a : nat) st it st' it' :
  for_each_it (Z.of_nat <$> seq a k) (load_class nb_opts) st it
  = Ok (st', it') →
  ∃ classes,
    length classes = k
    ∧ (∀ cd, cd ∈ classes → length (indicators cd) = Z.to_nat nb_opts)
    ∧ it = concat (class_tokens <$> classes) ++ it'
    ∧ st' = {| nb_cars := nb_cars st ++ (car_count <$> classes);
               ld_options := ld_options st ++ (class_row <$> classes);
               ld_initial_sequence :=
                 ld_initial_sequence st ++ expand (Z.of_nat a) classes |}.
Proof.
  revert a st it. induction k as [|k IH]; intros a st it; cbn.
  - intros [= <- <-]. exists []. cbn. rewrite !app_nil_r.
    split_and!; [done| |done|by destruct st].
    intros cd Hcd. by apply elem_of_nil in Hcd.
  - unfold mbind at 1, iter_bind at 1.
    destruct (load_class nb_opts (Z.of_nat a) st it) as [[st1 it1]|] eqn:Hclass;
      [|done].
    intros Hrest. apply load_class_Ok in Hclass as (cd & -> & Hlen & ->).
    apply IH in Hrest as (classes & Hk & Hind & -> & ->).
    exists (cd :: classes). cbn. split_and!.
    + by rewrite Hk.
    + intros cd' [->|Hcd']%elem_of_cons; auto.
    + by rewrite <- app_assoc.
    + rewrite <- !app_assoc. cbn.
      replace (Z.of_nat (S a)) with (Z.of_nat a + 1) by lia. done.
Qed.

(** Every successful load has read a description that follows the layout. *)
Lemma load_from_iter_Ok positions nb_opts nb_classes body self rest :
  load_from_iter (positions :: nb_opts :: nb_classes :: body)
  = Ok (self, rest) →
  ∃ d, laid_out d
       ∧ d_positions d = positions
       ∧ length (d_max d) = Z.to_nat nb_opts
       ∧ length (d_classes d) = Z.to_nat nb_classes
       ∧ body = d_max d ++ d_window d
                ++ concat (class_tokens <$> d_classes d) ++ rest
       ∧ len (expand 0 (d_classes d)) = positions
       ∧ self = loaded positions nb_opts d.
Proof.
  rewrite load_from_iter_fields. unfold read_fields, mbind, iter_bind.
  destruct (next_list nb_opts body) as [[maxima it1]|] eqn:Hmaxima; [|done].
  destruct (next_list nb_opts it1) as [[sizes it2]|] eqn:Hsizes; [|done].
  destruct (for_each_it _ _ _ it2) as [[st it3]|] eqn:Hclasses; [|done].
  apply next_list_Ok in Hmaxima as [-> Hmaxima].
  apply next_list_Ok in Hsizes as [-> Hsizes].
  unfold range in Hclasses.
  apply load_classes_Ok in Hclasses as (classes & Hk & Hind & -> & ->).
  cbn. destruct (bool_decide _) eqn:Hcheck; cbn; [|done].
  apply bool_decide_eq_true in Hcheck. intros [= <- <-].
  exists {| d_positions := positions; d_max := maxima; d_window := sizes;
            d_classes := classes |}.
  cbn. split_and!; try done.
  split; cbn; [lia|]. intros cd Hcd. rewrite Hind by done. lia.
Qed.

Lemma load_instance_Ok data self :
  _load_instance data = Ok self →
  ∃ positions nb_opts nb_classes body rest,
    data = positions :: nb_opts :: nb_classes :: body
    ∧ load_from_iter data = Ok (self, rest).
Proof.
  unfold _load_instance.
  destruct (load_from_iter data) as [[self' rest]|] eqn:Hload; [|done].
  intros [= ->].
  destruct data as [|positions [|nb_opts [|nb_classes body]]]; try done.
  by exists positions, nb_opts, nb_classes, body, rest.
Qed.

Lemma loaded_well_formed positions nb_opts d :
  laid_out d →
  len (d_max d) = nb_opts →
  len (expand 0 (d_classes d)) = positions →
  well_formed (loaded positions nb_opts d).
Proof.
  intros [Hwindow Hind] Hopts Hpositions. split; cbn; try done.
  - unfold len in *. by rewrite Hwindow.
  - intros row (cd & -> & Hcd)%list_elem_of_fmap.
    unfold class_row, len in *. rewrite length_fmap, Hind by done. done.
  - intros c Hc%expand_bounds. unfold len in *. by rewrite length_fmap.
Qed.

Lemma load_instance_well_formed data self :
  _load_instance data = Ok self →
  0 ≤ nb_options self →
  well_formed self.
Proof.
  intros (positions & nb_opts & nb_classes & body & rest & -> & Hload)
    %load_instance_Ok Hopts.
  apply load_from_iter_Ok in Hload
    as (d & Hlayout & _ & Hmax & _ & _ & Hpositions & ->).
  cbn in Hopts. apply loaded_well_formed; [done| |done].
  unfold len. lia.
Qed.

(** X10. Every instance the loader builds with an option count of zero or
    more satisfies the invariants the evaluator relies on: one limit and one
    window size per option, one boolean per option in every row, as many cars
    as positions, and a row for every class of the initial sequence. *)
Theorem loaded_instance_invariants data self :
  _load_instance data = Ok self →
  0 ≤ nb_options self →
  well_formed self.
Proof. apply load_instance_well_formed. Qed.

Lemma loaded_instance_invariants_witness : well_formed scenario.
Proof.
  apply (loaded_instance_invariants two_classes scenario).
  - vm_compute. reflexivity.
  - cbn. lia.
Defined.

Lemma load_instance_returns data self solution :
  _load_instance data = Ok self →
  ∃ r, evaluate_solution self solution = Ok r.
Proof.
  intros Hload.
  destruct (decide (0 ≤ nb_options self)) as [Hopts|Hopts].
  - eapply evaluate_returns, load_instance_well_formed; done.
  - apply load_instance_Ok in Hload
      as (positions & nb_opts & nb_classes & body & rest & -> & Hload).
    apply load_from_iter_Ok in Hload
      as (d & _ & _ & _ & _ & _ & Hpositions & ->).
    cbn in Hopts.
    destruct (passes_validation (loaded positions nb_opts d) solution)
      eqn:Hpass; [|rewrite evaluate_rejected by done; eauto].
    rewrite evaluate_accepted by done.
    apply passes_validation_spec in Hpass as (_ & _ & Hsorted).
    apply sorted_eq_range in Hsorted. cbn in Hsorted.
    unfold score. rewrite reconstruct_in_range.
    + cbn. unfold scan. cbn. rewrite range_nonpos by lia. cbn. eauto.
    + intros i Hi. cbn. rewrite Hpositions.
      by eapply permutation_range_bounds.
Qed.

(** X11. An instance the loader has built can be evaluated without an
    exception on every candidate whose items are ints, be it a list, a
    tuple, another sequence or an object without a length: the evaluator
    returns the penalty or a score. *)
Theorem loaded_instance_never_raises data self solution :
  _load_instance data = Ok self →
  ∃ r, evaluate_solution_any self (of_pyobj solution) = Ok r.
Proof. rewrite evaluate_solution_any_int. apply load_instance_returns. Qed.

Lemma loaded_instance_never_raises_witness :
  ∃ r, evaluate_solution_any scenario
         (CTuple [VInt 2; VInt 0; VInt 3; VInt 1]) = Ok r.
Proof.
  apply (loaded_instance_never_raises two_classes scenario
           (PyTuple [2; 0; 3; 1])).
  vm_compute. reflexivity.
Defined.

(** X12. Every successful load has read the tokens of a description that
    follows the layout, when the two counts of the header that size the
    reading are zero or more: the stream is those tokens followed by what the
    loader left, and the instance is the one the description stands for. *)
Theorem load_reads_a_description data self rest :
  load_from_iter data = Ok (self, rest) →
  0 ≤ nb_options self →
  (∀ nb_classes, data !! 2%nat = Some nb_classes → 0 ≤ nb_classes) →
  ∃ d, laid_out d ∧ data = tokens d ++ rest ∧ self = instance_of d.
Proof.
  intros Hload Hopts Hclasses.
  destruct data as [|positions [|nb_opts [|nb_classes body]]]; try done.
  specialize (Hclasses nb_classes eq_refl).
  apply load_from_iter_Ok in Hload
    as (d & Hlayout & Hpos & Hmax & Hlen & -> & _ & ->).
  cbn in Hopts. exists d. split; [done|].
  assert (len (d_max d) = nb_opts) as Hmax' by (unfold len; lia).
  assert (len (d_classes d) = nb_classes) as Hlen' by (unfold len; lia).
  split.
  - unfold tokens. rewrite Hpos, Hmax', Hlen', <- !app_assoc. done.
  - unfold loaded, instance_of. by rewrite Hpos, Hmax'.
Qed.

Lemma load_reads_a_description_witness :
  ∃ d, laid_out d ∧ two_classes ++ [7; 7] = tokens d ++ [7; 7]
       ∧ scenario = instance_of d.
Proof.
  apply (load_reads_a_description (two_classes ++ [7; 7]) scenario [7; 7]).
  - vm_compute. reflexivity.
  - cbn. lia.
  - intros nb_classes [= <-]. lia.
Defined.

(** X13. A stream of fewer than three tokens exhausts the iterator; a longer
    one whose option and class counts are zero or more raises
    [StopIteration] exactly when it holds fewer tokens than
    [3 + 2 * nb_options + nb_classes * (2 + nb_options)]. *)
Theorem stop_iteration_iff_short positions nb_opts nb_classes body :
  0 ≤ nb_opts →
  0 ≤ nb_classes →
  (∀ data, len data < 3 → _load_instance data = Raise StopIteration)
  ∧ (_load_instance (positions :: nb_opts :: nb_classes :: body)
     = Raise StopIteration ↔
     len (positions :: nb_opts :: nb_classes :: body)
     < expected_tokens nb_opts nb_classes).
Proof.
  intros Hopts Hclasses. split.
  - intros [|a [|b [|c data]]]; unfold len; cbn; try done. lia.
  - unfold _load_instance. split.
    + intros Hstop.
      destruct (decide (len (positions :: nb_opts :: nb_classes :: body)
                        < expected_tokens nb_opts nb_classes)) as [|Hlong];
        [done|].
      destruct (load_from_iter_long positions nb_opts nb_classes body)
        as [Herror|[self Hself]]; [done|done|lia| |].
      * by rewrite Herror in Hstop.
      * by rewrite Hself in Hstop.
    + intros Hshort. by rewrite load_from_iter_short.
Qed.

Lemma stop_iteration_iff_short_witness :
  _load_instance [4; 1; 2; 1; 2; 0; 2; 1; 1; 2] = Raise StopIteration ↔
  len [4; 1; 2; 1; 2; 0; 2; 1; 1; 2] < expected_tokens 1 2.
Proof.
  refine (proj2 (stop_iteration_iff_short 4 1 2 [1; 2; 0; 2; 1; 1; 2] _ _));
    lia.
Defined.

(** * The cars of a class *)

Lemma len_replicate_max {A : Type} (n : Z) (x : A) :
  len (replicate (Z.to_nat n) x) = Z.max 0 n.
Proof. unfold len. rewrite length_replicate. lia. Qed.

Lemma len_expand_max c0 classes :
  len (expand c0 classes)
  = Reference.Zsum (λ cd, Z.max 0 (car_count cd)) classes.
Proof.
  unfold Reference.Zsum. revert c0.
  induction classes as [|cd classes IH]; intros c0; cbn; [done|].
  by rewrite len_app, len_replicate_max, IH.
Qed.

Lemma occurrences_expand_max classes c0 (c : nat) cd :
  classes !! c = Some cd →
  occurrences (c0 + Z.of_nat c) (expand c0 classes) = Z.max 0 (car_count cd).
Proof.
  revert c0 c. induction classes as [|cd0 classes IH]; intros c0 c; [done|].
  cbn [expand]. rewrite occurrences_app. destruct c as [|c].
  - intros [= ->]. change (Z.of_nat 0) with 0.
    rewrite Z.add_0_r, occurrences_replicate, occurrences_absent; [lia|].
    intros Hin%expand_bounds. lia.
  - intros Hcd. change (classes !! c = Some cd) in Hcd.
    rewrite occurrences_absent.
    + replace (c0 + Z.of_nat (S c)) with (c0 + 1 + Z.of_nat c) by lia.
      by rewrite (IH (c0 + 1) c).
    + intros [Heq _]%elem_of_replicate. lia.
Qed.

(** X14. A number of cars below zero is read as no car.  On a description
    that follows the layout the loader succeeds exactly when the numbers of
    cars, each taken as zero when negative, add up to the position count, and
    raises [ValueError] otherwise; class [c] then occurs that many times in
    the initial sequence. *)
Theorem negative_count_is_no_car d rest :
  laid_out d →
  _load_instance (tokens d ++ rest)
  = (if bool_decide (Reference.Zsum (λ cd, Z.max 0 (car_count cd))
                       (d_classes d) = d_positions d)
     then Ok (instance_of d)
     else Raise ValueError)
  ∧ ∀ (c : nat) cd,
      d_classes d !! c = Some cd →
      occurrences (Z.of_nat c) (initial_sequence (instance_of d))
      = Z.max 0 (car_count cd).
Proof.
  intros Hlayout. split.
  - unfold _load_instance.
    rewrite load_from_iter_tokens, len_expand_max by done.
    by destruct (bool_decide _).
  - intros c cd Hcd. cbn.
    rewrite <- (Z.add_0_l (Z.of_nat c)). by apply occurrences_expand_max.
Qed.

Lemma laid_out_negative_count : laid_out negative_count_description.
Proof. split; cbn; try done; finite_members. Qed.

Lemma negative_count_is_no_car_witness :
  total_cars negative_count_description = 1
  ∧ _load_instance (tokens negative_count_description)
    = Ok (instance_of negative_count_description)
  ∧ initial_sequence (instance_of negative_count_description) = [0; 0].
Proof.
  split; [reflexivity|]. split; [|reflexivity].
  rewrite <- (app_nil_r (tokens negative_count_description)).
  exact (proj1 (negative_count_is_no_car negative_count_description []
                  laid_out_negative_count)).
Defined.

(** ** Tokens that do not matter *)

Lemma expand_counts c0 classes classes' :
  Forall2 (λ cd cd', car_count cd = car_count cd') classes classes' →
  expand c0 classes = expand c0 classes'.
Proof.
  intros Hsame. revert c0.
  induction Hsame as [|cd cd' classes classes' Hcount _ IH]; intros c0; cbn;
    [done|].
  by rewrite Hcount, IH.
Qed.

(** X15. The index token of a class and the value of an indicator other
    than [1] play no part: two descriptions that follow the layout and agree
    on the position count, the limits, the window sizes, the numbers of cars
    and on which indicators are [1] load to the same result, whatever follows
    them. *)
Theorem index_tokens_ignored d d' rest rest' :
  laid_out d →
  laid_out d' →
  d_positions d = d_positions d' →
  d_max d = d_max d' →
  d_window d = d_window d' →
  Forall2 (λ cd cd', car_count cd = car_count cd'
                     ∧ class_row cd = class_row cd')
    (d_classes d) (d_classes d') →
  _load_instance (tokens d ++ rest) = _load_instance (tokens d' ++ rest').
Proof.
  intros Hlayout Hlayout' Hpositions Hmax Hwindow Hclasses.
  assert (expand 0 (d_classes d) = expand 0 (d_classes d')) as Hexpand.
  { apply expand_counts. eapply Forall2_impl; [done|]. by intros ?? [? _]. }
  assert (class_row <$> d_classes d = class_row <$> d_classes d') as Hrows.
  { clear -Hclasses.
    induction Hclasses as [|cd cd' classes classes' [_ Hrow] _ IH]; cbn;
      [done|].
    by rewrite Hrow, IH. }
  unfold _load_instance. rewrite !load_from_iter_tokens by done.
  unfold instance_of. rewrite Hexpand, Hrows, Hpositions, Hmax, Hwindow.
  by destruct (bool_decide _).
Qed.

Lemma laid_out_relabelled : laid_out relabelled_description.
Proof. split; cbn; try done; finite_members. Qed.

Lemma index_tokens_ignored_witness :
  _load_instance (tokens two_classes_description ++ [])
  = _load_instance (tokens relabelled_description ++ [9]).
Proof.
  apply (index_tokens_ignored two_classes_description relabelled_description
           [] [9]).
  - exact (wfd_layout _ well_formed_two_classes).
  - exact laid_out_relabelled.
  - reflexivity.
  - reflexivity.
  - reflexivity.
  - repeat constructor.
Defined.

(** ** The order of the initial sequence *)

Lemma expand_sorted c0 classes : StronglySorted Z.le (expand c0 classes).
Proof.
  revert c0. induction classes as [|cd classes IH]; intros c0; cbn.
  - constructor.
  - apply StronglySorted_app_2; [| |apply IH].
    + intros x y Hx%elem_of_replicate_inv Hy%expand_bounds. lia.
    + generalize (Z.to_nat (car_count cd)) as k. intros k.
      induction k as [|k IHk]; cbn; constructor; [done|].
      apply Forall_replicate. lia.
Qed.

(** X16. The initial sequence of a loaded instance never decreases: the cars
    of class 0 come first, then those of class 1, and so on, and every entry
    names a row of [options]. *)
Theorem loaded_initial_sequence_sorted data self :
  _load_instance data = Ok self →
  Sorted Z.le (initial_sequence self)
  ∧ ∀ c, c ∈ initial_sequence self → 0 ≤ c < len (options self).
Proof.
  intros (positions & nb_opts & nb_classes & body & rest & -> & Hload)
    %load_instance_Ok.
  apply load_from_iter_Ok in Hload as (d & _ & _ & _ & _ & _ & _ & ->).
  cbn. split.
  - apply StronglySorted_Sorted, expand_sorted.
  - intros c Hc%expand_bounds. unfold len in *. by rewrite length_fmap.
Qed.

Lemma loaded_initial_sequence_sorted_witness :
  Sorted Z.le (initial_sequence scenario)
  ∧ ∀ c, c ∈ initial_sequence scenario → 0 ≤ c < len (options scenario).
Proof.
  apply (loaded_initial_sequence_sorted two_classes scenario).
  vm_compute. reflexivity.
Defined.

(** * From the file to a score *)

(** X17. Loading a file, drawing a random candidate and evaluating it always
    ends in a score: an int of zero or more, never the penalty and never an
    exception, whatever rearrangement the shuffle makes. *)
Theorem loaded_random_solution_scored {G : Type}
    (shuffle : G → list Z → list Z * G) data self g :
  (∀ g l, (shuffle g l).1 ≡ₚ l) →
  _load_instance data = Ok self →
  ∃ v, 0 ≤ v
       ∧ evaluate_solution self (random_solution shuffle self g).1
         = Ok (PyInt v).
Proof.
  intros Hshuffle Hload.
  destruct (load_instance_returns data self
              (random_solution shuffle self g).1 Hload) as [r Hr].
  assert (0 ≤ nb_positions self) as Hn.
  { apply load_instance_Ok in Hload
      as (positions & nb_opts & nb_classes & body & rest & -> & Hload).
    apply load_from_iter_Ok in Hload
      as (d & _ & _ & _ & _ & _ & Hpositions & ->).
    cbn. rewrite <- Hpositions. apply len_nonneg. }
  assert (passes_validation self (random_solution shuffle self g).1 = true)
    as Hpass.
  { unfold random_solution.
    pose proof (Hshuffle g (range (nb_positions self))) as Hperm.
    destruct (shuffle g (range (nb_positions self))) as [sol g'].
    by apply valid_permutation_passes. }
  pose proof Hr as Hscore. rewrite evaluate_accepted in Hscore by done.
  apply score_is_int in Hscore as [v ->].
  exists v. split; [|done]. by eapply evaluate_int_nonneg.
Qed.

Lemma loaded_random_solution_scored_witness :
  ∃ v, 0 ≤ v
       ∧ evaluate_solution scenario
           (random_solution shuffle_backwards scenario ()).1
         = Ok (PyInt v).
Proof.
  apply (loaded_random_solution_scored shuffle_backwards two_classes
           scenario ()).
  - intros g l. apply reverse_Permutation.
  - vm_compute. reflexivity.
Defined.

(** * One more requirement *)

Section one_more_requirement.
Variable self : CarSequencingProblem.
Variables c o : nat.

Lemma class_options_with_requirement c' o' :
  Reference.class_options self c' o' = true →
  Reference.class_options (with_requirement self c o) c' o' = true.
Proof.
  unfold Reference.class_options, Reference.at_index. cbn [options with_requirement].
  destruct (c' <? 0); [done|]. destruct (o' <? 0); [done|].
  rewrite !nth_lookup, list_lookup_alter.
  destruct (decide (c = Z.to_nat c')) as [->|Hne]; [|done].
  destruct (options self !! Z.to_nat c') as [row|]; cbn; [|done].
  rewrite list_lookup_insert. by case_decide.
Qed.

Lemma well_formed_with_requirement :
  well_formed self → well_formed (with_requirement self c o).
Proof.
  intros [Hmax Hwindow Hrows Hinitial Hclasses]. split; cbn; try done.
  - intros row (i & Hrow)%list_elem_of_lookup.
    rewrite list_lookup_alter in Hrow.
    destruct (decide (c = i)) as [->|Hne].
    + destruct (options self !! i) as [row0|] eqn:Hrow0; [|done].
      injection Hrow as <-. unfold len. rewrite length_insert.
      eapply Hrows, list_elem_of_lookup_2, Hrow0.
    + eapply Hrows, list_elem_of_lookup_2, Hrow.
  - unfold len in *. by rewrite length_alter.
Qed.

Lemma length_filter_impl {A : Type} (P Q : A → Prop)
    `{!∀ x, Decision (P x), !∀ x, Decision (Q x)} (l : list A) :
  (∀ x, P x → Q x) → (length (filter P l) ≤ length (filter Q l))%nat.
Proof.
  intros Himpl. induction l as [|x l IH]; [done|].
  rewrite !filter_cons.
  destruct (decide (P x)) as [HP|HP]; destruct (decide (Q x)) as [HQ|HQ];
    cbn; try lia.
  exfalso. by apply HQ, Himpl.
Qed.

Lemma objective_with_requirement items :
  Reference.objective self items
  ≤ Reference.objective (with_requirement self c o) items.
Proof.
  unfold Reference.objective, Reference.objective_on. cbn [nb_options
    with_requirement].
  apply Zsum_le. intros o' _.
  unfold Reference.option_violations, Reference.window_starts.
  cbn [nb_positions window_size with_requirement].
  apply Zsum_le. intros j _.
  unfold Reference.excess, Reference.count, Reference.sequence_of.
  cbn [max_cars_per_window window_size initial_sequence with_requirement].
  assert (∀ P Q : Z → Prop, ∀ (HP : ∀ x, Decision (P x))
            (HQ : ∀ x, Decision (Q x)) l,
            (∀ x, P x → Q x) → len (filter P l) ≤ len (filter Q l)) as Hlen.
  { intros P Q HP HQ l Himpl. unfold len.
    pose proof (length_filter_impl P Q l Himpl). lia. }
  apply Z.max_le_compat_l, Z.sub_le_mono_r, Hlen.
  intros k. apply class_options_with_requirement.
Qed.
End one_more_requirement.

(** X18. Making one more class require one more option never lowers a score:
    on an instance that satisfies the invariants a list or tuple holding a
    valid permutation is scored before and after [options[c][o] = True], and
    the second score is not below the first. *)
Theorem one_more_requirement_never_lowers self (c o : nat) solution :
  well_formed self →
  isinstance_list_tuple solution = true →
  valid_permutation self (items_of solution) →
  ∃ s s',
    evaluate_solution self solution = Ok (PyInt s)
    ∧ evaluate_solution (with_requirement self c o) solution = Ok (PyInt s')
    ∧ s ≤ s'.
Proof.
  intros Hwf Hinst Hperm.
  rewrite (evaluate_valid_permutation self) by done.
  rewrite (evaluate_valid_permutation (with_requirement self c o))
    by auto using well_formed_with_requirement.
  eexists _, _. split_and!; [done..|]. apply objective_with_requirement.
Qed.

Lemma one_more_requirement_never_lowers_witness :
  ∃ s s',
    evaluate_solution scenario (PyList [0; 2; 1; 3]) = Ok (PyInt s)
    ∧ evaluate_solution (with_requirement scenario 1 0) (PyList [0; 2; 1; 3])
      = Ok (PyInt s')
    ∧ s ≤ s'.
Proof.
  apply (one_more_requirement_never_lowers scenario 1 0 (PyList [0; 2; 1; 3])).
  - exact well_formed_scenario.
  - reflexivity.
  - apply sorted_eq_range. vm_compute. reflexivity.
Defined.

Example one_more_requirement_scenario :
  evaluate_solution (with_requirement scenario 1 0) (PyList [0; 2; 1; 3])
  = Ok (PyInt 3).
Proof. vm_compute. reflexivity. Qed.
